(** * The prefix trie of bcachectl.py

    A shallow embedding of [class Trie] (src/bcachectl.py, lines 69-240):
    [insert], [find], [shorten] and [prefixes], followed by the properties
    of the unique-prefix index that the specification states about them. *)

From Stdlib Require Import ZArith Ascii Lia.
From stdpp Require Import base option list strings gmap.

Local Open Scope Z_scope.
Local Open Scope nat_scope.

(** ** Python values *)

(** The exceptions the four methods can raise; [RecursionError] is the
    interpreter's, for a call made with no frame left on its stack. *)
Inductive exn : Set :=
| IndexError
| KeyError
| RecursionError.

(** Outcome of a call: a returned value or a raised exception. *)
Inductive result (A : Type) : Type :=
| Ok (a : A)
| Raise (e : exn).
Arguments Ok {A} a.
Arguments Raise {A} e.

(** An exception raised by a call propagates through its caller. *)
#[global] Instance result_ret : MRet result := fun A a => Ok a.
#[global] Instance result_bind : MBind result := fun A B k r =>
  match r with
  | Ok a => k a
  | Raise e => Raise e
  end.

(** *** str *)

Module Str.

(** [s[:n]] for a natural [n]: the first [n] symbols, all of [s] when it
    is shorter. *)
Fixpoint take (n : nat) (s : string) : string :=
  match n, s with
  | S n', String c s' => String c (take n' s')
  | _, _ => ""
  end.

(** [s[:stop]] (equally [s[0:stop]]) for a Python int [stop]: a negative
    [stop] counts from the end, and the bound is clipped to [0..len(s)]. *)
Definition slice_to (s : string) (stop : Z) : string :=
  let len := Z.of_nat (String.length s) in
  let stop := if (stop <? 0)%Z then Z.max 0 (stop + len) else Z.min stop len in
  take (Z.to_nat stop) s.

(** [p] is an initial segment of [s]. *)
Definition is_prefix (p s : string) : Prop := exists r, s = p +:+ r.

(** [p] is an initial segment of [s] other than [s] itself. *)
Definition is_proper_prefix (p s : string) : Prop :=
  is_prefix p s /\ p <> s.

End Str.

(** *** dict, keyed by single characters

    A dict keeps its keys unique and in insertion order; it is modelled by
    the list of its items. *)

Module Dict.

Section Ops.
Context {V : Type}.

(** [d[ch]], with [None] for a missing key ([ch not in d]). *)
Fixpoint get (ch : ascii) (d : list (ascii * V)) : option V :=
  match d with
  | [] => None
  | (k, v) :: d' => if Ascii.eqb ch k then Some v else get ch d'
  end.

(** [d[ch] = v]: replaces the value of an existing key where it stands,
    and adds a new key at the end. *)
Fixpoint set (ch : ascii) (v : V) (d : list (ascii * V)) : list (ascii * V) :=
  match d with
  | [] => [(ch, v)]
  | (k, w) :: d' =>
      if Ascii.eqb ch k then (k, v) :: d' else (k, w) :: set ch v d'
  end.

Definition keys (d : list (ascii * V)) : list ascii := d.*1.

End Ops.

End Dict.

(** ** class Trie *)

(** A node holds nothing but [self.children], a dict from a symbol to the
    child node. *)
#[local] Unset Elimination Schemes.
Inductive Trie : Type :=
| Node (children : list (ascii * Trie)).
#[local] Set Elimination Schemes.

Definition children (self : Trie) : list (ascii * Trie) :=
  match self with Node cs => cs end.

(** [Trie()] *)
Definition Trie_new : Trie := Node [].

(** [Trie.insert] run with frames enough for its recursion, one for each
    symbol of the key ([insert_at] below counts them): the node after the
    call and the call's outcome.  The child the recursive call mutates
    stays where it is in [self.children]. *)
Fixpoint insert (self : Trie) (key : string) {struct key} : Trie * result unit :=
  match key with
  | "" => (self, Raise IndexError)
  | String ch rest =>
      let children1 :=
        match Dict.get ch (children self) with
        | None => Dict.set ch Trie_new (children self)
        | Some _ => children self
        end in
      if 1 <? String.length key then
        match Dict.get ch children1 with
        | None => (Node children1, Raise KeyError)
        | Some child =>
            let (child', r) := insert child rest in
            (Node (Dict.set ch child' children1), r)
        end
      else (Node children1, Ok tt)
  end.

(** [Trie.insert] called with [depth] frames left on the interpreter's
    stack.  Each call of a Python function takes a frame, [Trie()] for its
    [__init__] and [insert] for itself, and raises [RecursionError] when
    none is left; what the calls before it have put in the trie stays. *)
Fixpoint insert_at (depth : nat) (self : Trie) (key : string) {struct key}
  : Trie * result unit :=
  match key with
  | "" => (self, Raise IndexError)
  | String ch rest =>
      match
        match Dict.get ch (children self) with
        | None =>
            match depth with
            | O => Raise RecursionError
            | S _ => Ok (Dict.set ch Trie_new (children self))
            end
        | Some _ => Ok (children self)
        end
      with
      | Raise e => (self, Raise e)
      | Ok children1 =>
          if 1 <? String.length key then
            match depth with
            | O => (Node children1, Raise RecursionError)
            | S depth' =>
                match Dict.get ch children1 with
                | None => (Node children1, Raise KeyError)
                | Some child =>
                    let (child', r) := insert_at depth' child rest in
                    (Node (Dict.set ch child' children1), r)
                end
            end
          else (Node children1, Ok tt)
      end
  end.

(** The three kinds of value [find] returns: [False], a [str], and a pair
    of a [str] and a node. *)
Inductive FindResult : Type :=
| NotFound
| Unique (full : string)
| Ambiguous (found : string) (node : Trie).

(** What both branches of [find] do with the [tail] their recursive call
    returned. *)
Definition find_join (ch : ascii) (tail : FindResult) : FindResult :=
  match tail with
  | Unique tail => Unique (String ch tail)
  | NotFound => NotFound
  | Ambiguous tail child => Ambiguous (String ch tail) child
  end.

(** [self.find(None)]: the search key is used up. *)
Fixpoint find_None (self : Trie) : FindResult :=
  match self with
  | Node [] => Unique ""
  | Node [(ch, child)] => find_join ch (find_None child)
  | Node _ => Ambiguous "" self
  end.

(** [self.find(key)] for a [str] key. *)
Fixpoint find (self : Trie) (key : string) {struct key} : result FindResult :=
  match key with
  | "" => Raise IndexError
  | String ch rest =>
      match Dict.get ch (children self) with
      | None => Ok NotFound
      | Some child =>
          tail ← (if String.length key =? 1 then Ok (find_None child)
                  else find child rest);
          Ok (find_join ch tail)
      end
  end.

(** The first loop of [shorten], entered with [this] and [items] as they
    are and [rest = key[len(items):]]; [None] is its [return False]. *)
Fixpoint shorten_walk (this : Trie) (items : list Trie) (rest : string)
  : option (list Trie) :=
  match rest with
  | "" => Some items
  | String ch rest' =>
      match Dict.get ch (children this) with
      | None => None
      | Some child => shorten_walk child (items ++ [child]) rest'
      end
  end.

(** The second loop of [shorten], entered with [offset = n - 1]. *)
Fixpoint shorten_scan (items : list Trie) (key : string) (minlen : Z) (n : nat)
  : result (option string) :=
  match n with
  | O => Ok (Some (Str.slice_to key minlen))
  | S offset =>
      match items !! offset with
      | None => Raise IndexError
      | Some item =>
          if length (children item) =? 1 then shorten_scan items key minlen offset
          else
            let offset := (Z.of_nat offset + 2)%Z in
            let offset := if (offset <? minlen)%Z then minlen else offset in
            Ok (Some (Str.slice_to key offset))
      end
  end.

(** [Trie.shorten]; [Ok None] is the returned [False]. *)
Definition shorten (self : Trie) (key : string) (minlen : Z)
  : result (option string) :=
  match shorten_walk self [] key with
  | None => Ok None
  | Some items =>
      match last items with
      | None => Raise IndexError
      | Some final =>
          if negb (length (children final) =? 0) then Ok None
          else shorten_scan items key minlen (length items - 1)
      end
  end.

(** [Trie.prefixes]. *)
Fixpoint prefixes (self : Trie) (prefix : option string) (minlen : Z)
  : gset string :=
  let prefix := default "" prefix in
  match self with
  | Node cs =>
      if length cs =? 0 then {[ prefix ]}
      else if (length cs =? 1) && (minlen <=? Z.of_nat (String.length prefix))%Z
      then {[ prefix ]}
      else
        (fix loop (found : gset string) (items : list (ascii * Trie)) :=
           match items with
           | [] => found
           | (ch, v) :: items' =>
               loop (found ∪ prefixes v (Some (prefix +:+ String ch "")) minlen) items'
           end) ∅ cs
  end.

(** ** The tries of the docstrings *)

(** [t.insert(key)] for each of [keys] in turn; a call that raises leaves
    the trie to the next one as it found it. *)
Definition inserts (keys : list string) (t : Trie) : Trie :=
  foldl (fun t key => (insert t key).1) t keys.

(** [t.insert(key)] for each call of [calls] in turn, each with the frames
    its caller has left. *)
Definition inserts_at (calls : list (nat * string)) (t : Trie) : Trie :=
  foldl (fun t call => (insert_at call.1 t call.2).1) t calls.

Definition stooges : Trie := inserts ["larry"; "moe"; "curly"] Trie_new.
Definition stooges_clinton : Trie := inserts ["clinton"] stooges.
Definition digits : Trie := inserts ["12345678"] Trie_new.
Definition digits_abcd : Trie := inserts ["1234abcd"] digits.
Definition ab12 : Trie := inserts ["ab1"; "ab2"] Trie_new.

(** ** Paths, leaves and branching nodes *)

(** The node reached from [t] by consuming [path] symbol by symbol, when
    every symbol has a matching child at its position. *)
Fixpoint descend (t : Trie) (path : string) : option Trie :=
  match path with
  | "" => Some t
  | String ch rest => child ← Dict.get ch (children t); descend child rest
  end.

(** The child [insert] descends into: the one already under [ch], or the
    new node it has just put there. *)
Definition entered (t : Trie) (ch : ascii) : Trie :=
  match Dict.get ch (children t) with
  | Some child => child
  | None => Trie_new
  end.

(** [find_join] along all the symbols of [p]: what [find] makes of the
    result that comes back from the end of a search key [p]. *)
Definition find_prepend (p : string) (r : FindResult) : FindResult :=
  match r with
  | Unique tail => Unique (p +:+ tail)
  | NotFound => NotFound
  | Ambiguous tail node => Ambiguous (p +:+ tail) node
  end.

(** Some symbol of [key] has no matching child at its position in the walk
    down from [t]. *)
Definition no_child_at (t : Trie) (key : string) : Prop :=
  exists p ch r n,
    key = p +:+ String ch r /\ descend t p = Some n /\
    Dict.get ch (children n) = None.

(** Scanning backward from the node just before the end of [key], the
    first node with two or more children is the one reached by consuming
    [j] symbols; every node after it, up to the one before the end, has
    exactly one child. *)
Definition last_branch (t : Trie) (key : string) (j : nat) : Prop :=
  j < String.length key /\
  (exists b, descend t (Str.take j key) = Some b /\ 2 <= length (children b)) /\
  forall i n, j < i < String.length key ->
    descend t (Str.take i key) = Some n -> length (children n) = 1.

(** [single_run n run b]: from [n], a run of nodes with exactly one child
    each, whose symbols spell [run], leads to [b]. *)
Inductive single_run : Trie -> string -> Trie -> Prop :=
| single_run_here n : single_run n "" n
| single_run_step ch child run b :
    single_run child run b -> single_run (Node [(ch, child)]) (String ch run) b.

(** The invariant of the dicts: no symbol is a key twice, at any node. *)
#[local] Unset Elimination Schemes.
Inductive wf : Trie -> Prop :=
| wf_Node cs :
    NoDup (Dict.keys cs) -> Forall (fun kv => wf kv.2) cs -> wf (Node cs).
#[local] Set Elimination Schemes.

(** [stops t q]: the path [q] leaves [t] through nodes with two or more
    children and ends at the first node with at most one. *)
Inductive stops : Trie -> string -> Prop :=
| stops_here t : length (children t) <= 1 -> stops t ""
| stops_step t ch child q :
    2 <= length (children t) -> (ch, child) ∈ children t -> stops child q ->
    stops t (String ch q).

(** [yields minlen len t q]: called on [t] with a prefix of [len] symbols,
    [prefixes] walks down [q] through nodes it does not return at, and
    returns at the node [q] ends in: one without children, or one with a
    single child once the prefix has [minlen] symbols. *)
Inductive yields (minlen : Z) : nat -> Trie -> string -> Prop :=
| yields_here len t :
    length (children t) = 0 \/
    (length (children t) = 1 /\ (minlen <= Z.of_nat len)%Z) ->
    yields minlen len t ""
| yields_step len t ch child q :
    ~ (length (children t) = 0 \/
       (length (children t) = 1 /\ (minlen <= Z.of_nat len)%Z)) ->
    (ch, child) ∈ children t -> yields minlen (S len) child q ->
    yields minlen len t (String ch q).

(** Two outcomes of [shorten] are of the same kind, and when both are a
    [str] the first is not longer than the second. *)
Definition shorten_le (r1 r2 : result (option string)) : Prop :=
  match r1, r2 with
  | Ok (Some s1), Ok (Some s2) => String.length s1 <= String.length s2
  | Ok None, Ok None => True
  | Raise e1, Raise e2 => e1 = e2
  | _, _ => False
  end.

(** ** class Bcache

    The ids, types and paths the program handles are ASCII; a [str] with
    other characters, as the two marks [main] prints, stands for the bytes
    of its UTF-8 encoding. *)

(** [TypeError], which formatting raises, beside the exceptions above. *)
Inductive exception : Set :=
| Builtin (e : exn)
| TypeError.

(** Outcome of a call of [Bcache] or of [main]. *)
Inductive outcome (A : Type) : Type :=
| Return (a : A)
| Throw (e : exception).
Arguments Return {A} a.
Arguments Throw {A} e.

#[global] Instance outcome_ret : MRet outcome := fun A a => Return a.
#[global] Instance outcome_bind : MBind outcome := fun A B k r =>
  match r with
  | Return a => k a
  | Throw e => Throw e
  end.

(** An exception of a [Trie] method passes through its caller. *)
Definition lift {A : Type} (r : result A) : outcome A :=
  match r with
  | Ok a => Return a
  | Raise e => Throw (Builtin e)
  end.

Fixpoint spaces (n : nat) : string :=
  match n with
  | O => ""
  | S n' => String " " (spaces n')
  end.

(** [format(s, str(width))] for a [str]: spaces fill it up on the right to
    [width] symbols. *)
Definition format_width (s : string) (width : nat) : string :=
  s +:+ spaces (width - String.length s).

(** [format(v, "")] for what the getters return: a [str] as it is, and
    ["False"]. *)
Definition format_value (v : option string) : string :=
  match v with
  | Some s => s
  | None => "False"
  end.

(** [format(v, "")] for [path]: a [str] as it is, and ["None"]. *)
Definition format_path (v : option string) : string :=
  match v with
  | Some s => s
  | None => "None"
  end.

Module Bcache.

(** The attributes of an object; [None] is Python's. *)
Record t : Type := {
  path : option string;
  type : option string;
  _id : option string;
  _parent : option string
}.

(** [Bcache()] *)
Definition __init__ : t :=
  {| path := None; type := None; _id := None; _parent := None |}.

(** The getter of [id]; [ids] is the class attribute [Bcache.ids], the trie
    all objects share. *)
Definition id (ids : Trie) (self : t) : result (option string) :=
  match _id self with
  | None => Ok (Some "None")
  | Some v => shorten ids v 4
  end.

(** The setter of [id], with frames enough for its [insert]: the shared
    trie and the object after the call, and the outcome of the call. *)
Definition id_setter (ids : Trie) (self : t) (val : string)
  : Trie * t * result unit :=
  let self :=
    {| path := path self; type := type self;
       _id := Some val; _parent := _parent self |} in
  let (ids, r) := insert ids val in
  (ids, self, r).

(** The setter of [id] called with [depth] frames left for its call of
    [insert]. *)
Definition id_setter_at (depth : nat) (ids : Trie) (self : t) (val : string)
  : Trie * t * result unit :=
  let self :=
    {| path := path self; type := type self;
       _id := Some val; _parent := _parent self |} in
  let (ids, r) := insert_at depth ids val in
  (ids, self, r).

(** The getter of [parent]. *)
Definition parent (ids : Trie) (self : t) : result (option string) :=
  match _parent self with
  | None => Ok (Some "None")
  | Some v => shorten ids v 4
  end.

(** The setter of [parent], with frames enough for its [insert]. *)
Definition parent_setter (ids : Trie) (self : t) (val : string)
  : Trie * t * result unit :=
  let self :=
    {| path := path self; type := type self;
       _id := _id self; _parent := Some val |} in
  let (ids, r) := insert ids val in
  (ids, self, r).

(** [Bcache.__str__] *)
Definition __str__ (ids : Trie) (self : t) : outcome string :=
  let width := match _parent self with None => 9 | Some _ => 6 end in
  match type self with
  | None => Throw TypeError
  | Some ty =>
      i ← lift (id ids self);
      Return (format_width ty width +:+ " " +:+ format_value i +:+ " "
              +:+ format_path (path self))
  end.

End Bcache.

(** ** main *)

(** The first loop of [main] over [objects], entered with [parents] and
    [children] as they are. *)
Fixpoint main_group (ids : Trie) (objects parents : list Bcache.t)
    (children : gmap (option string) (list Bcache.t))
  : outcome (list Bcache.t * gmap (option string) (list Bcache.t)) :=
  match objects with
  | [] => Return (parents, children)
  | i :: objects' =>
      match Bcache._parent i with
      | None => main_group ids objects' (parents ++ [i]) children
      | Some _ =>
          k ← lift (Bcache.parent ids i);
          children ← match children !! k with
                     | None =>
                         k ← lift (Bcache.parent ids i);
                         Return (<[k := []]> children)
                     | Some _ => Return children
                     end;
          k ← lift (Bcache.parent ids i);
          match children !! k with
          | None => Throw (Builtin KeyError)
          | Some group =>
              main_group ids objects' parents (<[k := group ++ [i]]> children)
          end
      end
  end.

(** The loop over the children of one parent, entered with [nr] as it is;
    [stdout] is the list of the lines printed so far.  [print] writes the
    mark and the separator before it asks the child for its text: when
    that raises, they are on the line left unfinished. *)
Fixpoint main_print_children (ids : Trie) (nr : Z) (group : list Bcache.t)
    (stdout : list string) : list string * outcome unit :=
  match group with
  | [] => (stdout, Return tt)
  | child :: group' =>
      let prefix := if (nr =? 1)%Z then "└─" else "├─" in
      let nr := (nr - 1)%Z in
      match Bcache.__str__ ids child with
      | Throw e => (stdout ++ [prefix +:+ " "], Throw e)
      | Return s =>
          main_print_children ids nr group' (stdout ++ [prefix +:+ " " +:+ s])
      end
  end.

(** [children[k]] *)
Definition getitem (children : gmap (option string) (list Bcache.t))
    (k : option string) : outcome (list Bcache.t) :=
  match children !! k with
  | Some group => Return group
  | None => Throw (Builtin KeyError)
  end.

(** The second loop of [main]. *)
Fixpoint main_print (ids : Trie)
    (children : gmap (option string) (list Bcache.t))
    (parents : list Bcache.t) (stdout : list string)
  : list string * outcome unit :=
  match parents with
  | [] => (stdout, Return tt)
  | parent :: parents' =>
      match Bcache.__str__ ids parent with
      | Throw e => (stdout, Throw e)
      | Return s =>
          let stdout := stdout ++ [s] in
          match k ← lift (Bcache.id ids parent);
                group ← getitem children k;
                Return (Z.of_nat (length group)) with
          | Throw e => (stdout, Throw e)
          | Return nr =>
              match k ← lift (Bcache.id ids parent); getitem children k with
              | Throw e => (stdout, Throw e)
              | Return group =>
                  match main_print_children ids nr group stdout with
                  | (stdout, Throw e) => (stdout, Throw e)
                  | (stdout, Return _) =>
                      main_print ids children parents' stdout
                  end
              end
          end
      end
  end.

(** [main] from the list [Bcache.find()] has returned, with the shared
    trie as the setters have left it: the lines printed and the outcome. *)
Definition main (ids : Trie) (objects : list Bcache.t)
  : list string * outcome unit :=
  match main_group ids objects [] ∅ with
  | Throw e => ([], Throw e)
  | Return (parents, children) => main_print ids children parents []
  end.

(** *** What [main] prints, said directly *)

#[global] Instance exn_eq_dec : EqDecision exn.
Proof. solve_decision. Defined.

#[global] Instance result_eq_dec {A : Type} `{EqDecision A} : EqDecision (result A).
Proof. solve_decision. Defined.

(** An object whose attributes are as [Bcache.find] leaves them: a type,
    and no empty id or parent. *)
Definition printable (o : Bcache.t) : Prop :=
  is_Some (Bcache.type o) /\ Bcache._id o <> Some "" /\
  Bcache._parent o <> Some "".

(** The objects without a parent, in their order. *)
Definition tops (objects : list Bcache.t) : list Bcache.t :=
  filter (fun o => Bcache._parent o = None) objects.

(** The objects with a parent whose [parent] getter gives [r], in their
    order. *)
Definition under (ids : Trie) (r : result (option string))
    (objects : list Bcache.t) : list Bcache.t :=
  filter (fun o => is_Some (Bcache._parent o) /\ Bcache.parent ids o = r)
         objects.

(** The text of an object when [__str__] returns one. *)
Definition line (ids : Trie) (o : Bcache.t) : string :=
  match Bcache.__str__ ids o with
  | Return s => s
  | Throw _ => ""
  end.

(** The texts of a group with their marks: the last one is the corner. *)
Fixpoint tree (texts : list string) : list string :=
  match texts with
  | [] => []
  | [s] => ["└─ " +:+ s]
  | s :: texts' => ("├─ " +:+ s) :: tree texts'
  end.


(** What the list of a key of [children] becomes when [new] objects are
    appended under it. *)
Definition merge (old : option (list Bcache.t)) (new : list Bcache.t)
  : option (list Bcache.t) :=
  match old, new with
  | None, [] => None
  | None, _ => Some new
  | Some group, _ => Some (group ++ new)
  end.

(** *** A listing: a cache set with a backing device and a cache, and a
    cache set with nothing under it *)

Definition cset_1 : Bcache.t :=
  {| Bcache.path := Some "sda1"; Bcache.type := Some "cset";
     Bcache._id := Some "1b2c3d4e-aaaa"; Bcache._parent := None |}.
Definition bdev_1 : Bcache.t :=
  {| Bcache.path := Some "sdb"; Bcache.type := Some "bdev0";
     Bcache._id := Some "99998888-bbbb";
     Bcache._parent := Some "1b2c3d4e-aaaa" |}.
Definition cache_1 : Bcache.t :=
  {| Bcache.path := Some "nvme0n1p1"; Bcache.type := Some "cache0";
     Bcache._id := Some "Null"; Bcache._parent := Some "1b2c3d4e-aaaa" |}.
Definition cset_2 : Bcache.t :=
  {| Bcache.path := None; Bcache.type := Some "cset";
     Bcache._id := Some "1b2cffff-cccc"; Bcache._parent := None |}.

(** [Bcache.ids] once the setters have run for these objects. *)
Definition listing_ids : Trie :=
  inserts ["1b2c3d4e-aaaa"; "1b2c3d4e-aaaa"; "99998888-bbbb";
           "1b2c3d4e-aaaa"; "Null"; "1b2cffff-cccc"] Trie_new.

(** ** Facts about str *)

Module StrFacts.
Import Str.

Lemma take_length n s : String.length (take n s) = n `min` String.length s.
Proof.
  revert s; induction n as [|n IH]; intros [|c s]; simpl; try done.
  by rewrite IH.
Qed.

Lemma take_all n s : String.length s <= n -> take n s = s.
Proof.
  revert s; induction n as [|n IH]; intros [|c s]; simpl; try done; try lia.
  intros H. f_equal. apply IH. lia.
Qed.

Lemma take_min n s : take (n `min` String.length s) s = take n s.
Proof.
  revert s; induction n as [|n IH]; intros [|c s]; simpl; try done.
  by rewrite IH.
Qed.

Lemma append_cons c p r : String c p +:+ r = String c (p +:+ r).
Proof. reflexivity. Qed.

Lemma take_is_prefix n s : is_prefix (take n s) s.
Proof.
  revert s; induction n as [|n IH]; intros [|c s]; simpl;
    try (by eexists).
  destruct (IH s) as [r Hr]. exists r. rewrite append_cons. congruence.
Qed.

Lemma is_prefix_nil_inv p : is_prefix p "" -> p = "".
Proof. intros [r Hr]. by destruct p. Qed.

Lemma is_prefix_cons c p d s :
  is_prefix (String c p) (String d s) <-> c = d /\ is_prefix p s.
Proof.
  split.
  - intros [r Hr]. rewrite append_cons in Hr. injection Hr as -> ->.
    split; [done | by exists r].
  - intros [-> [r ->]]. by exists r.
Qed.

Lemma append_nil_r s : s +:+ "" = s.
Proof. induction s as [|c s IH]; [done | by rewrite append_cons, IH]. Qed.

Lemma append_assoc a b c : (a +:+ b) +:+ c = a +:+ (b +:+ c).
Proof. induction a as [|x a IH]; [done | by rewrite !append_cons, IH]. Qed.

Lemma append_inv_head pre a b : pre +:+ a = pre +:+ b -> a = b.
Proof.
  induction pre as [|c pre IH]; [done|].
  rewrite !append_cons. intros H. injection H as H. by apply IH.
Qed.

Lemma append_length a b : String.length (a +:+ b) = String.length a + String.length b.
Proof. induction a as [|x a IH]; [done | rewrite append_cons; simpl; by rewrite IH]. Qed.

(** A slice with a stop that is not negative is [take]. *)
Lemma slice_to_nonneg s z : (0 <= z)%Z -> slice_to s z = take (Z.to_nat z) s.
Proof.
  intros Hz. unfold slice_to.
  destruct (Z.ltb_spec z 0) as [|_]; [lia|].
  rewrite <- (take_min (Z.to_nat z)). f_equal. lia.
Qed.

Lemma slice_to_is_prefix s z : is_prefix (slice_to s z) s.
Proof. apply take_is_prefix. Qed.

Lemma slice_to_length_nonneg s z :
  (0 <= z)%Z ->
  Z.of_nat (String.length (slice_to s z)) = Z.min z (Z.of_nat (String.length s)).
Proof. intros Hz. rewrite slice_to_nonneg, take_length by done. lia. Qed.

(** Whatever the stop, the slice keeps at least [min stop (len s)]
    symbols. *)
Lemma slice_to_length_ge s z :
  (Z.min z (Z.of_nat (String.length s))
     <= Z.of_nat (String.length (slice_to s z)))%Z.
Proof.
  destruct (Z.le_gt_cases 0 z) as [Hz|Hz].
  - by rewrite slice_to_length_nonneg.
  - lia.
Qed.

End StrFacts.

(** ** Facts about dict *)

Module DictFacts.
Import Dict.

Section Facts.
Context {V : Type}.
Implicit Types (d : list (ascii * V)) (ch k : ascii) (v w : V).

Lemma get_set_eq ch v d : get ch (set ch v d) = Some v.
Proof.
  induction d as [|[k w] d IH]; simpl.
  - by rewrite Ascii.eqb_refl.
  - destruct (Ascii.eqb_spec ch k) as [->|Hne]; simpl.
    + by rewrite Ascii.eqb_refl.
    + by destruct (Ascii.eqb_spec ch k).
Qed.

Lemma get_set_ne ch k v d : ch <> k -> get k (set ch v d) = get k d.
Proof.
  intros Hne. induction d as [|[k' w] d IH]; simpl.
  - by destruct (Ascii.eqb_spec k ch); [congruence|].
  - destruct (Ascii.eqb_spec ch k') as [->|Hne']; simpl.
    + by destruct (Ascii.eqb_spec k k'); [congruence|].
    + by rewrite IH.
Qed.

Lemma set_get_id ch v d : get ch d = Some v -> set ch v d = d.
Proof.
  induction d as [|[k w] d IH]; simpl; [done|].
  destruct (Ascii.eqb_spec ch k) as [->|Hne].
  - by intros [= ->].
  - intros H. by rewrite IH.
Qed.

Lemma set_set ch v w d : set ch v (set ch w d) = set ch v d.
Proof.
  induction d as [|[k x] d IH]; simpl.
  - by rewrite Ascii.eqb_refl.
  - destruct (Ascii.eqb_spec ch k) as [->|Hne]; simpl.
    + by rewrite Ascii.eqb_refl.
    + destruct (Ascii.eqb_spec ch k); [done|]. by rewrite IH.
Qed.

Lemma keys_set_Some ch v w d : get ch d = Some w -> keys (set ch v d) = keys d.
Proof.
  unfold keys. induction d as [|[k x] d IH]; simpl; [done|].
  destruct (Ascii.eqb_spec ch k) as [->|Hne]; simpl; [done|].
  intros H. f_equal. by apply IH.
Qed.

Lemma keys_set_None ch v d : get ch d = None -> keys (set ch v d) = keys d ++ [ch].
Proof.
  unfold keys. induction d as [|[k x] d IH]; simpl; [done|].
  destruct (Ascii.eqb_spec ch k) as [->|Hne]; simpl; [done|].
  intros H. f_equal. by apply IH.
Qed.

Lemma get_None_keys ch d : get ch d = None <-> ch ∉ keys d.
Proof.
  unfold keys. induction d as [|[k x] d IH]; simpl.
  - split; [intros _; apply not_elem_of_nil | done].
  - rewrite not_elem_of_cons.
    destruct (Ascii.eqb_spec ch k) as [->|Hne]; [by split; [|intros []]|].
    rewrite IH. tauto.
Qed.

Lemma get_Some_elem ch v d : get ch d = Some v -> (ch, v) ∈ d.
Proof.
  induction d as [|[k x] d IH]; simpl; [done|].
  destruct (Ascii.eqb_spec ch k) as [->|Hne].
  - intros [= ->]. apply list_elem_of_here.
  - intros H. apply list_elem_of_further. by apply IH.
Qed.

(** With unique keys, an item of the dict is what [get] returns. *)
Lemma elem_get ch v d : NoDup (keys d) -> (ch, v) ∈ d -> get ch d = Some v.
Proof.
  unfold keys. induction d as [|[k x] d IH]; simpl.
  - intros _ H. by apply elem_of_nil in H.
  - rewrite NoDup_cons. intros [Hk Hd] H.
    apply elem_of_cons in H as [[= -> ->]|H].
    + by rewrite Ascii.eqb_refl.
    + destruct (Ascii.eqb_spec ch k) as [->|Hne]; [|by apply IH].
      exfalso. apply Hk. apply list_elem_of_fmap. by exists (k, v).
Qed.

Lemma get_singleton ch k v w : get ch [(k, w)] = Some v -> k = ch /\ w = v.
Proof.
  simpl. destruct (Ascii.eqb_spec ch k) as [->|Hne]; [|done].
  by intros [= ->].
Qed.

End Facts.

End DictFacts.

(** ** Induction on tries *)

Lemma Trie_ind (P : Trie -> Prop) :
  (forall cs, Forall (fun kv => P kv.2) cs -> P (Node cs)) -> forall t, P t.
Proof.
  intros HNode. fix IH 1. intros [cs]. apply HNode.
  induction cs as [|[k c] cs IHcs]; constructor; [apply IH | apply IHcs].
Qed.

Lemma Node_children t : Node (children t) = t.
Proof. by destruct t. Qed.

(** ** Paths *)

Section Paths.
Import Str StrFacts.

Lemma descend_app t p q : descend t (p +:+ q) = n ← descend t p; descend n q.
Proof.
  revert t; induction p as [|ch p IH]; intros t; [done|].
  rewrite append_cons. simpl. destruct (Dict.get ch (children t)); simpl; [apply IH | done].
Qed.

Lemma descend_None_iff t key : descend t key = None <-> no_child_at t key.
Proof.
  split.
  - revert t; induction key as [|ch rest IH]; intros t; simpl; [done|].
    destruct (Dict.get ch (children t)) as [c|] eqn:Hget; simpl.
    + intros (p & ch' & r & n & -> & Hp & Hn)%IH.
      exists (String ch p), ch', r, n. simpl. by rewrite Hget.
    + intros _. by exists "", ch, rest, t.
  - intros (p & ch & r & n & -> & Hp & Hn).
    rewrite descend_app, Hp. simpl. by rewrite Hn.
Qed.

End Paths.

(** ** Insertion *)

Section Insert.
Import Str StrFacts DictFacts.

(** [insert] rewrites one entry of [self.children] and nothing else. *)
Lemma insert_cons t ch rest :
  (insert t (String ch rest)).1 =
  Node (Dict.set ch
          (if decide (rest = "") then entered t ch
           else (insert (entered t ch) rest).1)
          (children t)).
Proof.
  unfold entered. cbn [insert].
  destruct (Dict.get ch (children t)) as [c|] eqn:Hget.
  - destruct rest as [|ch' rest]; cbn [String.length Nat.ltb Nat.leb].
    + rewrite decide_True by done. cbn [fst]. by rewrite (set_get_id _ _ _ Hget).
    + rewrite Hget, decide_False by done.
      by destruct (insert c (String ch' rest)).
  - destruct rest as [|ch' rest]; cbn [String.length Nat.ltb Nat.leb].
    + by rewrite decide_True.
    + rewrite get_set_eq, decide_False by done.
      destruct (insert Trie_new (String ch' rest)); cbn [fst].
      by rewrite set_set.
Qed.

(** A key that is not empty is inserted without an exception. *)
Lemma insert_ok t key : key <> "" -> (insert t key).2 = Ok tt.
Proof.
  revert t; induction key as [|ch rest IH]; intros t Hne; [done|].
  cbn [insert].
  destruct rest as [|ch' rest]; cbn [String.length Nat.ltb Nat.leb]; [done|].
  set (cs := match Dict.get ch (children t) with
             | Some _ => children t
             | None => Dict.set ch Trie_new (children t)
             end).
  assert (is_Some (Dict.get ch cs)) as [c Hc].
  { subst cs. destruct (Dict.get ch (children t)) eqn:Hget; [by rewrite Hget|].
    rewrite get_set_eq. by eexists. }
  rewrite Hc. specialize (IH c). destruct (insert c (String ch' rest)).
  by apply IH.
Qed.

(** Inserting a key whose path is already there changes nothing. *)
Lemma insert_present t key n :
  key <> "" -> descend t key = Some n -> (insert t key).1 = t.
Proof.
  revert t; induction key as [|ch rest IH]; intros t Hne; [done|].
  rewrite insert_cons. unfold entered. simpl.
  destruct (Dict.get ch (children t)) as [c|] eqn:Hget; simpl; [|done].
  intros Hrest. case_decide as Hr.
  - by rewrite (set_get_id _ _ _ Hget), Node_children.
  - by rewrite (IH c Hr Hrest), (set_get_id _ _ _ Hget), Node_children.
Qed.

(** After its insertion a key is a path of the trie. *)
Lemma insert_descend t key : is_Some (descend (insert t key).1 key).
Proof.
  revert t; induction key as [|ch rest IH]; intros t; [by eexists|].
  rewrite insert_cons. simpl. rewrite get_set_eq. simpl.
  case_decide as Hr; [|apply IH]. subst rest. by eexists.
Qed.

(** Every path of the trie is still one after an insertion, and the node
    it leads to keeps its keys, in their order, ahead of any new one. *)
Lemma insert_descend_mono t key p n :
  descend t p = Some n ->
  exists n', descend (insert t key).1 p = Some n' /\
    Dict.keys (children n) `prefix_of` Dict.keys (children n').
Proof.
  revert t p; induction key as [|ch rest IH]; intros t p Hp.
  { exists n. by split. }
  rewrite insert_cons.
  set (c' := if decide (rest = "") then _ else _).
  destruct p as [|k q]; simpl in Hp |- *.
  - injection Hp as <-. eexists; split; [done|]. simpl.
    destruct (Dict.get ch (children t)) as [c|] eqn:Hget.
    + by erewrite keys_set_Some.
    + rewrite keys_set_None by done. by apply prefix_app_r.
  - destruct (Dict.get k (children t)) as [c|] eqn:Hget; simpl in Hp; [|done].
    destruct (decide (ch = k)) as [->|Hne].
    + rewrite get_set_eq. simpl. subst c'. unfold entered. rewrite Hget. simpl.
      case_decide; [by exists n | by apply IH].
    + rewrite get_set_ne, Hget by done. simpl. by exists n.
Qed.

Lemma Trie_new_wf : wf Trie_new.
Proof. constructor; [apply NoDup_nil_2 | apply Forall_nil_2]. Qed.

Lemma wf_get t ch c : wf t -> Dict.get ch (children t) = Some c -> wf c.
Proof.
  intros [cs _ Hall]. simpl. intros Hget%get_Some_elem.
  rewrite Forall_forall in Hall. apply (Hall _ Hget).
Qed.

Lemma wf_set cs ch c :
  NoDup (Dict.keys cs) -> Forall (fun kv => wf kv.2) cs -> wf c ->
  wf (Node (Dict.set ch c cs)).
Proof.
  intros Hnd Hall Hc. constructor.
  - destruct (Dict.get ch cs) as [w|] eqn:Hget.
    + by erewrite keys_set_Some.
    + rewrite keys_set_None by done. apply NoDup_app. split_and!; [done| |apply NoDup_singleton].
      intros x Hx ->%list_elem_of_singleton. by apply get_None_keys in Hget.
  - clear Hnd. induction Hall as [|[k w] cs Hw Hall IH]; simpl.
    + by repeat constructor.
    + destruct (Ascii.eqb ch k); constructor; done.
Qed.

(** [insert] keeps the keys of every dict unique. *)
Lemma insert_wf t key : wf t -> wf (insert t key).1.
Proof.
  revert t; induction key as [|ch rest IH]; intros t Ht; [done|].
  rewrite insert_cons.
  assert (wf (entered t ch)) as Hent.
  { unfold entered. destruct (Dict.get ch (children t)) eqn:Hget; simpl.
    - by eapply wf_get. - apply Trie_new_wf. }
  destruct Ht as [cs Hnd Hall]. apply wf_set; [done..|].
  case_decide; [done | by apply IH].
Qed.

Lemma inserts_wf keys t : wf t -> wf (inserts keys t).
Proof.
  revert t; induction keys as [|key keys IH]; intros t Ht; [done|].
  apply IH. by apply insert_wf.
Qed.

(** A node of a trie with unique keys has unique keys. *)
Lemma wf_descend t p n : wf t -> descend t p = Some n -> wf n.
Proof.
  revert t; induction p as [|ch p IH]; intros t Ht; simpl.
  - by intros [= <-].
  - destruct (Dict.get ch (children t)) as [c|] eqn:Hget; simpl; [|done].
    apply IH. by eapply wf_get.
Qed.

(** A path of the trie stays one through any further insertions. *)
Lemma inserts_descend_mono keys t p :
  is_Some (descend t p) -> is_Some (descend (inserts keys t) p).
Proof.
  revert t; induction keys as [|key keys IH]; intros t Hp; [done|].
  apply IH. destruct Hp as [n Hn].
  destruct (insert_descend_mono t key p n Hn) as (n' & Hn' & _). by eexists.
Qed.

(** Every key that was inserted is a path of the trie. *)
Lemma inserts_elem_descend keys t key :
  key ∈ keys -> is_Some (descend (inserts keys t) key).
Proof.
  revert t; induction keys as [|k keys IH]; intros t Hin.
  - by apply elem_of_nil in Hin.
  - apply elem_of_cons in Hin as [->|Hin]; [|by apply IH].
    apply (inserts_descend_mono keys (insert t k).1), insert_descend.
Qed.

End Insert.

(** ** Insertion with the frames counted *)

Section InsertAt.
Import Str StrFacts DictFacts.

Lemma insert_cons_fst t ch rest :
  (insert t (String ch rest)).1
  = Node (Dict.set ch (insert (entered t ch) rest).1 (children t)).
Proof. rewrite insert_cons. case_decide as Hr; [by subst rest | done]. Qed.

(** A call with [depth] frames left leaves the trie that the insertion of
    the first [depth] symbols of the key leaves. *)
Lemma insert_at_fst depth t key :
  (insert_at depth t key).1 = (insert t (take depth key)).1.
Proof.
  revert depth t; induction key as [|ch rest IH]; intros depth t.
  { by destruct depth. }
  destruct depth as [|depth].
  - cbn [take insert fst insert_at].
    destruct (Dict.get ch (children t)) as [c|]; [|done].
    destruct rest; cbn [String.length Nat.ltb Nat.leb fst];
      by rewrite Node_children.
  - cbn [take]. rewrite insert_cons_fst. unfold entered. cbn [insert_at].
    destruct (Dict.get ch (children t)) as [c|] eqn:Hget.
    + destruct rest as [|ch' rest]; cbn [String.length Nat.ltb Nat.leb fst].
      * destruct depth; cbn [take insert fst];
          by rewrite (set_get_id _ _ _ Hget).
      * rewrite Hget. specialize (IH depth c).
        destruct (insert_at depth c (String ch' rest)). cbn [fst] in *.
        by rewrite IH.
    + destruct rest as [|ch' rest]; cbn [String.length Nat.ltb Nat.leb fst].
      * by destruct depth.
      * rewrite get_set_eq. specialize (IH depth Trie_new).
        destruct (insert_at depth Trie_new (String ch' rest)). cbn [fst] in *.
        by rewrite IH, set_set.
Qed.

(** The frames suffice when there is one for each symbol, and also with
    one less when the key is already a path; short of that the call ends
    in [RecursionError]. *)
Lemma insert_at_snd depth t key :
  key <> "" ->
  ((String.length key <= depth \/
    (String.length key = S depth /\ is_Some (descend t key))) /\
   (insert_at depth t key).2 = Ok tt) \/
  (~ (String.length key <= depth \/
      (String.length key = S depth /\ is_Some (descend t key))) /\
   (insert_at depth t key).2 = Raise RecursionError).
Proof.
  revert depth t; induction key as [|ch rest IH]; intros depth t Hne; [done|].
  cbn [insert_at descend String.length].
  destruct (Dict.get ch (children t)) as [c|] eqn:Hget; cbn [mbind option_bind].
  - destruct rest as [|ch' rest]; cbn [String.length Nat.ltb Nat.leb snd].
    + left. split; [|done]. destruct depth; [right | left; lia].
      split; [done | by eexists].
    + destruct depth as [|depth]; cbn [snd].
      { right. split; [|done]. simpl. lia. }
      rewrite Hget.
      destruct (IH depth c ltac:(done)) as [[Hc Hr]|[Hc Hr]];
        destruct (insert_at depth c (String ch' rest)); cbn [snd] in *;
        [left | right]; (split; [|done]); simpl in *; [|intros H; apply Hc];
        (destruct Hc as [Hc|[Hc1 Hc2]] || destruct H as [H|[H1 H2]]);
        [left; lia | right; split; [lia | done]
        | left; lia | right; split; [lia | done]].
  - destruct depth as [|depth]; cbn [snd].
    { right. split; [|done]. simpl. intros [H|[_ []]]; [lia | done]. }
    destruct rest as [|ch' rest]; cbn [String.length Nat.ltb Nat.leb snd].
    + left. split; [left; lia | done].
    + rewrite get_set_eq.
      destruct (IH depth Trie_new ltac:(done)) as [[Hc Hr]|[Hc Hr]];
        destruct (insert_at depth Trie_new (String ch' rest)); cbn [snd] in *.
      * left. split; [|done]. destruct Hc as [Hc|[_ [? Hc]]]; [|done].
        left. simpl in *. lia.
      * right. split; [|done]. intros [H|[_ []]]; [|done].
        apply Hc. left. simpl in *. lia.
Qed.

(** With a frame for each symbol the call is the insertion above. *)
Lemma insert_at_enough depth t key :
  String.length key <= depth -> insert_at depth t key = insert t key.
Proof.
  intros Hlen. apply injective_projections.
  - by rewrite insert_at_fst, take_all.
  - destruct (decide (key = "")) as [->|Hne]; [done|].
    rewrite insert_ok by done.
    destruct (insert_at_snd depth t key Hne) as [[_ Hr]|[Hc _]]; [done|].
    destruct Hc. by left.
Qed.




End InsertAt.

(** ** The two loops of shorten *)

Section Shorten.
Import Str StrFacts DictFacts.

(** The first loop only ever extends [items]. *)
Lemma shorten_walk_acc this acc rest :
  shorten_walk this acc rest = (acc ++.) <$> shorten_walk this [] rest.
Proof.
  revert this acc; induction rest as [|ch rest IH]; intros this acc; simpl.
  - by rewrite app_nil_r.
  - destruct (Dict.get ch (children this)) as [c|]; [|done].
    rewrite (IH c (acc ++ [c])), (IH c [c]).
    destruct (shorten_walk c [] rest); simpl; [|done]. by rewrite <- app_assoc.
Qed.

(** It returns [False] exactly when the path does not exist. *)
Lemma shorten_walk_None this rest :
  shorten_walk this [] rest = None <-> descend this rest = None.
Proof.
  revert this; induction rest as [|ch rest IH]; intros this; simpl; [done|].
  destruct (Dict.get ch (children this)) as [c|]; simpl; [|done].
  rewrite shorten_walk_acc, <- IH. by destruct (shorten_walk c [] rest).
Qed.

(** Otherwise [items[i]] is the node reached after [i + 1] symbols. *)
Lemma shorten_walk_Some this rest items :
  shorten_walk this [] rest = Some items ->
  length items = String.length rest /\
  forall i, i < String.length rest ->
    items !! i = descend this (take (S i) rest).
Proof.
  revert this items; induction rest as [|ch rest IH]; intros this items; simpl.
  - intros [= <-]. split; [done | lia].
  - destruct (Dict.get ch (children this)) as [c|]; simpl; [|done].
    rewrite shorten_walk_acc.
    destruct (shorten_walk c [] rest) as [items'|] eqn:Hw; simpl; [|done].
    intros [= <-]. destruct (IH _ _ Hw) as [Hlen Hlook]. split; [simpl; lia|].
    intros [|i] Hi; simpl.
    + done.
    + apply Hlook. lia.
Qed.

Lemma shorten_walk_last this rest items :
  rest <> "" -> shorten_walk this [] rest = Some items ->
  last items = descend this rest.
Proof.
  intros Hne Hw. destruct (shorten_walk_Some _ _ _ Hw) as [Hlen Hlook].
  assert (0 < String.length rest) by (destruct rest; [done | simpl; lia]).
  rewrite last_lookup, Hlook by lia. f_equal. apply take_all. lia.
Qed.

(** The second loop stops at the last node that does not have exactly one
    child. *)
Lemma shorten_scan_branch items key minlen n j b :
  j < n <= length items ->
  items !! j = Some b -> length (children b) <> 1 ->
  (forall i x, j < i < n -> items !! i = Some x -> length (children x) = 1) ->
  shorten_scan items key minlen n
  = Ok (Some (slice_to key (Z.max (Z.of_nat j + 2) minlen))).
Proof.
  intros [Hj Hn] Hb Hbr. induction n as [|n IH]; intros Hone; [lia|].
  simpl. destruct (lookup_lt_is_Some_2 items n) as [item Hitem]; [lia|].
  rewrite Hitem. destruct (decide (n = j)) as [->|Hnj].
  - assert (item = b) as -> by congruence.
    destruct (Nat.eqb_spec (length (children b)) 1) as [|_]; [done|].
    do 3 f_equal. destruct (Z.ltb_spec (Z.of_nat j + 2) minlen); lia.
  - rewrite (Hone n item), Nat.eqb_refl by (done || lia).
    apply IH; [lia..|]. intros i x Hi. apply Hone. lia.
Qed.

(** With no such node it runs out and the whole key is cut at [minlen]. *)
Lemma shorten_scan_chain items key minlen n :
  n <= length items ->
  (forall i x, i < n -> items !! i = Some x -> length (children x) = 1) ->
  shorten_scan items key minlen n = Ok (Some (slice_to key minlen)).
Proof.
  induction n as [|n IH]; intros Hn Hone; [done|].
  simpl. destruct (lookup_lt_is_Some_2 items n) as [item Hitem]; [lia|].
  rewrite Hitem, (Hone n item), Nat.eqb_refl by (done || lia).
  apply IH; [lia|]. intros i x Hi. apply Hone. lia.
Qed.

(** In both cases the result is a slice [key[:stop]] with [stop] not below
    [minlen], and the nodes from [items[stop - 1]] on have one child. *)
Lemma shorten_scan_stop items key minlen n :
  n <= length items ->
  exists stop : Z,
    shorten_scan items key minlen n = Ok (Some (slice_to key stop)) /\
    (minlen <= stop)%Z /\
    forall i x, (stop - 1 <= Z.of_nat i)%Z -> i < n ->
      items !! i = Some x -> length (children x) = 1.
Proof.
  induction n as [|n IH]; intros Hn; simpl.
  - exists minlen. split_and!; [done | lia | lia].
  - destruct (lookup_lt_is_Some_2 items n) as [item Hitem]; [lia|].
    rewrite Hitem.
    destruct (Nat.eqb_spec (length (children item)) 1) as [Hone|Hbr].
    + destruct IH as (stop & Hscan & Hmin & Hrun); [lia|].
      exists stop. split_and!; [done..|].
      intros i x Hstop Hi Hx. destruct (decide (i = n)) as [->|Hin].
      * congruence.
      * apply (Hrun i); [done | lia | done].
    + eexists. split_and!; [done | |].
      * destruct (Z.ltb_spec (Z.of_nat n + 2) minlen); lia.
      * intros i x Hstop Hi.
        destruct (Z.ltb_spec (Z.of_nat n + 2) minlen); lia.
Qed.

Lemma slice_to_length_mono s a b :
  (0 <= a <= b)%Z ->
  String.length (slice_to s a) <= String.length (slice_to s b).
Proof.
  intros Hab. rewrite !slice_to_nonneg, !take_length by lia. lia.
Qed.

(** The second loop is monotone in [minlen]. *)
Lemma shorten_scan_mono items key m1 m2 n :
  (0 <= m1 <= m2)%Z ->
  shorten_le (shorten_scan items key m1 n) (shorten_scan items key m2 n).
Proof.
  intros Hm. induction n as [|n IH]; simpl.
  - by apply slice_to_length_mono.
  - destruct (items !! n) as [item|]; [|done].
    destruct (length (children item) =? 1); [done|].
    simpl. apply slice_to_length_mono.
    destruct (Z.ltb_spec (Z.of_nat n + 2) m1), (Z.ltb_spec (Z.of_nat n + 2) m2); lia.
Qed.

Lemma shorten_empty t minlen : shorten t "" minlen = Raise IndexError.
Proof. reflexivity. Qed.

Lemma children_nil_length (t : Trie) : length (children t) = 0 <-> children t = [].
Proof. by destruct (children t). Qed.

(** The three ways a call of [shorten] on a key that is not empty ends. *)
Lemma shorten_cases t key minlen :
  key <> "" ->
  (descend t key = None /\ shorten t key minlen = Ok None) \/
  (exists n, descend t key = Some n /\ children n <> [] /\
             shorten t key minlen = Ok None) \/
  (exists leaf (stop : Z),
     descend t key = Some leaf /\ children leaf = [] /\
     shorten t key minlen = Ok (Some (slice_to key stop)) /\
     (minlen <= stop)%Z /\
     forall i n, (stop <= Z.of_nat i)%Z -> 1 <= i < String.length key ->
       descend t (take i key) = Some n -> length (children n) = 1).
Proof.
  intros Hne. unfold shorten.
  destruct (shorten_walk t [] key) as [items|] eqn:Hw.
  - pose proof (shorten_walk_last _ _ _ Hne Hw) as Hlast.
    destruct (shorten_walk_Some _ _ _ Hw) as [Hlen Hlook].
    destruct (last items) as [final|] eqn:Hfinal.
    + right. destruct (Nat.eqb_spec (length (children final)) 0) as [H0|H0]; simpl.
      * right. apply children_nil_length in H0.
        destruct (shorten_scan_stop items key minlen (length items - 1))
          as (stop & Hscan & Hmin & Hrun); [lia|].
        exists final, stop. split_and!; [done..|].
        intros [|i] n Hstop Hi Hn; [lia|].
        apply (Hrun i); [lia | lia |]. rewrite Hlook by lia. done.
      * left. exists final. split_and!; [done | | done].
        by rewrite <- children_nil_length.
    + exfalso. destruct items; [|by rewrite last_cons in Hfinal; destruct (last items)].
      destruct key; [done | simpl in Hlen; lia].
  - left. split; [|done]. by apply shorten_walk_None.
Qed.

End Shorten.

(** ** Resolving a prefix *)

Section Find.
Import Str StrFacts DictFacts.

Lemma find_join_prepend ch p r :
  find_join ch (find_prepend p r) = find_prepend (String ch p) r.
Proof. by destruct r. Qed.

(** [find] walks down its key and then hands over to [find(None)]. *)
Lemma find_descend t prefix n :
  prefix <> "" -> descend t prefix = Some n ->
  find t prefix = Ok (find_prepend prefix (find_None n)).
Proof.
  revert t; induction prefix as [|ch rest IH]; intros t Hne; [done|].
  cbn [find descend].
  destruct (Dict.get ch (children t)) as [c|]; simpl; [|done].
  destruct rest as [|ch' rest].
  - simpl. intros [= ->]. by destruct (find_None n).
  - intros Hn. cbn [String.length Nat.eqb]. rewrite (IH c) by done.
    simpl. by rewrite find_join_prepend.
Qed.

(** A key with a symbol that has no matching child is not found. *)
Lemma find_NotFound t key :
  key <> "" -> descend t key = None -> find t key = Ok NotFound.
Proof.
  revert t; induction key as [|ch rest IH]; intros t Hne; [done|].
  cbn [find descend].
  destruct (Dict.get ch (children t)) as [c|]; simpl; [|done].
  destruct rest as [|ch' rest]; [done|].
  intros Hn. cbn [String.length Nat.eqb]. by rewrite (IH c).
Qed.

(** Down a run of single children that ends in a leaf, [find(None)]
    collects the symbols of the run. *)
Lemma find_None_chain n rest leaf :
  descend n rest = Some leaf -> children leaf = [] ->
  (forall i x, i < String.length rest ->
     descend n (take i rest) = Some x -> length (children x) = 1) ->
  find_None n = Unique rest.
Proof.
  revert n; induction rest as [|ch rest IH]; intros n; simpl.
  - intros [= ->] Hleaf _. destruct leaf as [cs]. simpl in Hleaf. by subst cs.
  - destruct (Dict.get ch (children n)) as [c|] eqn:Hget; simpl; [|done].
    intros Hc Hleaf Hone.
    pose proof (Hone 0 n ltac:(lia) eq_refl) as Hn.
    destruct n as [[|[k x] [|? ?]]]; simpl in Hn; try done.
    apply get_singleton in Hget as [-> ->]. simpl.
    rewrite (IH c); [done..|].
    intros i y Hi Hy. apply (Hone (S i)); [lia|]. simpl.
    by rewrite Ascii.eqb_refl.
Qed.

(** Down a run of single children that ends in a node with several,
    [find(None)] returns the symbols of the run and that node. *)
Lemma find_None_run n run b :
  single_run n run b -> 2 <= length (children b) ->
  find_None n = Ambiguous run b.
Proof.
  induction 1 as [n|ch child run b Hrun IH]; intros Hb.
  - destruct n as [[|[? ?] [|? ?]]]; simpl in Hb; (done || lia).
  - simpl. by rewrite IH.
Qed.

Lemma take_append_add p r i :
  take (String.length p + i) (p +:+ r) = p +:+ take i r.
Proof. induction p as [|c p IH]; [done|]. rewrite !append_cons. simpl. by rewrite IH. Qed.

(** A prefix of a leaf's key after which no node branches resolves to the
    key. *)
Lemma find_take t key leaf len :
  1 <= len ->
  descend t key = Some leaf -> children leaf = [] ->
  (forall i n, len <= i < String.length key ->
     descend t (take i key) = Some n -> length (children n) = 1) ->
  key <> "" ->
  find t (take len key) = Ok (Unique key).
Proof.
  intros Hlen Hleaf Hnil Hone Hne.
  destruct (take_is_prefix len key) as [r Hr].
  set (p := take len key) in *.
  assert (String.length p = len `min` String.length key) as Hp
    by apply take_length.
  assert (p <> "") as Hpne.
  { intros Hp0. rewrite Hp0 in Hp. destruct key; [done|]. simpl in Hp. lia. }
  rewrite Hr, descend_app in Hleaf.
  destruct (descend t p) as [n|] eqn:Hn; simpl in Hleaf; [|done].
  rewrite (find_descend t p n) by done.
  rewrite (find_None_chain n r leaf); [simpl; by rewrite <- Hr | done..|].
  intros i x Hi Hx.
  assert (String.length key = String.length p + String.length r) as Hkey
    by (rewrite Hr at 1; apply append_length).
  apply (Hone (String.length p + i)); [lia|].
  rewrite Hr, take_append_add, descend_app, Hn. done.
Qed.

End Find.

(** ** Enumerating the prefixes *)

Section Prefixes.
Import Str StrFacts DictFacts.

(** The loop of [prefixes] over the items of [self.children]. *)
Lemma prefixes_Node cs pre minlen :
  prefixes (Node cs) pre minlen =
  let prefix := default "" pre in
  if length cs =? 0 then {[ prefix ]}
  else if (length cs =? 1) && (minlen <=? Z.of_nat (String.length prefix))%Z
  then {[ prefix ]}
  else foldl (fun found kv =>
                found ∪ prefixes kv.2 (Some (prefix +:+ String kv.1 "")) minlen)
             ∅ cs.
Proof.
  cbn [prefixes]. cbv zeta.
  destruct (length cs =? 0); [done|].
  destruct ((length cs =? 1) && _); [done|].
  generalize (∅ : gset string).
  induction cs as [|[ch v] cs IH]; intros found; [done|]. simpl. apply IH.
Qed.

Lemma elem_of_prefixes_loop (f : ascii * Trie -> gset string) found cs s :
  s ∈ foldl (fun found kv => found ∪ f kv) found cs <->
  s ∈ found \/ exists kv, kv ∈ cs /\ s ∈ f kv.
Proof.
  revert found; induction cs as [|kv cs IH]; intros found; simpl.
  - split; [by left|]. intros [|(kv & []%elem_of_nil & _)]; done.
  - rewrite IH, elem_of_union. split.
    + intros [[|]|(kv' & Hin & Hs)]; [by left| |].
      * right. exists kv. split; [apply list_elem_of_here | done].
      * right. exists kv'. split; [by apply list_elem_of_further | done].
    + intros [|(kv' & Hin & Hs)]; [by left; left|].
      apply elem_of_cons in Hin as [->|Hin]; [by left; right|].
      right. by exists kv'.
Qed.

Lemma prefixes_None t minlen : prefixes t None minlen = prefixes t (Some "") minlen.
Proof. by destruct t. Qed.

(** With [minlen = 0] every prefix returned is [prefix] followed by a path
    that stops at the first node with at most one child. *)
Lemma elem_of_prefixes_stops t pre s :
  s ∈ prefixes t (Some pre) 0 -> exists q, s = pre +:+ q /\ stops t q.
Proof.
  revert pre; induction t as [cs IH] using Trie_ind; intros pre.
  rewrite prefixes_Node. cbn [default].
  assert (stops (Node cs) "" -> s ∈ ({[ pre ]} : gset string) ->
          exists q, s = pre +:+ q /\ stops (Node cs) q) as Hstop.
  { intros Hhere ->%elem_of_singleton. exists "". by rewrite append_nil_r. }
  destruct (Nat.eqb_spec (length cs) 0) as [H0|H0].
  { apply Hstop. constructor. simpl. lia. }
  destruct (Nat.eqb_spec (length cs) 1) as [H1|H1]; simpl.
  { destruct (Z.leb_spec 0 (Z.of_nat (String.length pre))); [|lia].
    apply Hstop. constructor. simpl. lia. }
  rewrite elem_of_prefixes_loop.
  intros [[]%elem_of_empty|([ch v] & Hin & Hs)]. simpl in Hs.
  rewrite Forall_forall in IH.
  destruct (IH _ Hin _ Hs) as (q & -> & Hq).
  exists (String ch q). split.
  - by rewrite append_assoc.
  - apply stops_step with v; [simpl; lia | done | done].
Qed.

(** With unique keys, a stopping path is not continued by another. *)
Lemma stops_prefix t p q :
  wf t -> stops t p -> stops t q -> is_prefix p q -> p = q.
Proof.
  intros Hwf Hp. revert q Hwf.
  induction Hp as [t Ht|t ch child p Ht Hin Hp IH]; intros q Hwf Hq Hpre.
  - destruct Hq as [|? ? ? ? Ht']; [done | lia].
  - destruct Hq as [t Ht'|t ch' child' q Ht' Hin' Hq].
    { by apply is_prefix_nil_inv in Hpre. }
    apply is_prefix_cons in Hpre as [<- Hpre].
    destruct Hwf as [cs Hnd Hall]. simpl in *.
    assert (child' = child) as ->.
    { apply (elem_get _ _ _ Hnd) in Hin, Hin'. congruence. }
    f_equal. apply IH; [|done..].
    rewrite Forall_forall in Hall. apply (Hall _ Hin).
Qed.

End Prefixes.

(** ** The docstrings *)

Section Docstrings.

Example stooges_children : length (children stooges) = 3.
Proof. reflexivity. Qed.

Example stooges_prefixes : prefixes stooges None 0 = {[ "c"; "l"; "m" ]}.
Proof. by vm_compute. Qed.

Example stooges_prefixes_2 : prefixes stooges None 2 = {[ "cu"; "la"; "mo" ]}.
Proof. by vm_compute. Qed.

Example clinton_prefixes :
  prefixes stooges_clinton None 0 = {[ "cl"; "cu"; "l"; "m" ]}.
Proof. by vm_compute. Qed.

Example clinton_find_m : find stooges_clinton "m" = Ok (Unique "moe").
Proof. reflexivity. Qed.

Example clinton_find_c :
  exists node,
    find stooges_clinton "c" = Ok (Ambiguous "c" node) /\
    prefixes node None 0 = {[ "l"; "u" ]}.
Proof. eexists. split; [reflexivity | by vm_compute]. Qed.

Example clinton_find_z : find stooges_clinton "z" = Ok NotFound.
Proof. reflexivity. Qed.

Example ab12_find_a :
  exists node,
    find ab12 "a" = Ok (Ambiguous "ab" node) /\
    prefixes node None 0 = {[ "1"; "2" ]}.
Proof. eexists. split; [reflexivity | by vm_compute]. Qed.

Example digits_shorten : shorten digits "12345678" 1 = Ok (Some "1").
Proof. reflexivity. Qed.

Example digits_shorten_2 : shorten digits "12345678" 2 = Ok (Some "12").
Proof. reflexivity. Qed.

Example digits_abcd_shorten_12345 : shorten digits_abcd "12345" 1 = Ok None.
Proof. reflexivity. Qed.

Example digits_abcd_shorten : shorten digits_abcd "12345678" 1 = Ok (Some "12345").
Proof. reflexivity. Qed.

End Docstrings.

(** ** The properties of the specification *)

Section Claims.
Import Str StrFacts DictFacts.

Lemma digits_abcd_last_branch : last_branch digits_abcd "12345678" 4.
Proof.
  split_and!.
  - simpl. lia.
  - eexists. split; [reflexivity | simpl; lia].
  - intros i n Hi. simpl in Hi.
    assert (i = 5 \/ i = 6 \/ i = 7) as [->|[->| ->]] by lia;
      vm_compute; by intros [= <-].
Defined.

(** C1, as the specification has it, fails: with "12345678" and "1234abcd"
    inserted, the node reached by "1234" is the branching node the backward
    scan finds, yet [shorten("12345678", minlen=9)] does not return a prefix
    of length [max (4 + 1) 9]. *)
Lemma shorten_last_branch_unclamped :
  descend digits_abcd "12345678" = Some (Node []) /\
  last_branch digits_abcd "12345678" 4 /\
  ~ exists p,
      shorten digits_abcd "12345678" 9 = Ok (Some p) /\
      is_prefix p "12345678" /\
      Z.of_nat (String.length p) = Z.max (Z.of_nat 4 + 1) 9.
Proof.
  split_and!; [reflexivity | apply digits_abcd_last_branch |].
  intros (p & Hp & _ & Hlen). vm_compute in Hp. injection Hp as <-.
  vm_compute in Hlen. discriminate.
Qed.

(** C1, amended: for a key that is a path to a node without children, when
    the backward scan from the node before that leaf finds its first node
    with two or more children after [j] symbols, [shorten(key, minlen)],
    with [minlen >= 1], returns the prefix of [key] of length [j + 1]
    clamped upward to [minlen] and capped at the length of [key]. *)
Theorem shorten_last_branch t key minlen leaf j :
  descend t key = Some leaf -> children leaf = [] ->
  last_branch t key j -> (1 <= minlen)%Z ->
  exists p,
    shorten t key minlen = Ok (Some p) /\
    is_prefix p key /\
    Z.of_nat (String.length p)
    = Z.min (Z.max (Z.of_nat j + 1) minlen) (Z.of_nat (String.length key)).
Proof.
  intros Hleaf Hnil (Hj & (b & Hb & Hbr) & Hone) Hmin.
  assert (key <> "") as Hne by (intros ->; simpl in Hj; lia).
  exists (slice_to key (Z.max (Z.of_nat j + 1) minlen)).
  split_and!; [|apply slice_to_is_prefix|apply slice_to_length_nonneg; lia].
  unfold shorten.
  destruct (shorten_walk t [] key) as [items|] eqn:Hw; cycle 1.
  { apply shorten_walk_None in Hw. congruence. }
  rewrite (shorten_walk_last _ _ _ Hne Hw), Hleaf, Hnil. simpl.
  destruct (shorten_walk_Some _ _ _ Hw) as [Hlen Hlook].
  destruct j as [|j].
  - rewrite shorten_scan_chain; [do 3 f_equal; lia | lia |].
    intros i x Hi Hx. apply (Hone (S i)); [lia|]. rewrite <- Hlook by lia. done.
  - rewrite (shorten_scan_branch _ _ _ _ j b); [do 3 f_equal; lia | lia | | lia |].
    + rewrite Hlook by lia. done.
    + intros i x Hi Hx. apply (Hone (S i)); [lia|]. rewrite <- Hlook by lia. done.
Qed.

Lemma shorten_last_branch_witness :
  descend digits_abcd "12345678" = Some (Node []) /\
  last_branch digits_abcd "12345678" 4 /\
  shorten digits_abcd "12345678" 1 = Ok (Some "12345") /\
  exists p,
    shorten digits_abcd "12345678" 1 = Ok (Some p) /\
    is_prefix p "12345678" /\
    Z.of_nat (String.length p) = Z.min (Z.max (Z.of_nat 4 + 1) 1) 8.
Proof.
  split_and!; [reflexivity | apply digits_abcd_last_branch | reflexivity |].
  apply (shorten_last_branch digits_abcd "12345678" 1 (Node []) 4);
    [reflexivity | reflexivity | apply digits_abcd_last_branch | lia].
Defined.

(** C2: for a key [K] that is a path to a node without children and every
    [minlen >= 1], [shorten(K, minlen)] returns a prefix that [find]
    resolves to [K]. *)
Theorem find_shorten_roundtrip t K minlen leaf :
  K <> "" -> descend t K = Some leaf -> children leaf = [] ->
  (1 <= minlen)%Z ->
  exists s, shorten t K minlen = Ok (Some s) /\ find t s = Ok (Unique K).
Proof.
  intros Hne Hleaf Hnil Hmin.
  destruct (shorten_cases t K minlen Hne)
    as [[HK _]|[(n & HK & Hn & _)|(leaf' & stop & _ & _ & Hs & Hstop & Hone)]];
    [congruence.. |].
  exists (slice_to K stop). split; [done|].
  rewrite slice_to_nonneg by lia.
  apply (find_take t K leaf); [lia | done | done | | done].
  intros i n Hi. apply Hone; lia.
Qed.

Lemma find_shorten_roundtrip_witness :
  descend digits_abcd "1234abcd" = Some (Node []) /\
  exists s,
    shorten digits_abcd "1234abcd" 2 = Ok (Some s) /\
    find digits_abcd s = Ok (Unique "1234abcd").
Proof.
  split; [reflexivity|].
  apply (find_shorten_roundtrip digits_abcd "1234abcd" 2 (Node []));
    [discriminate | reflexivity | reflexivity | lia].
Defined.

(** C3, as the specification has it, fails: with "larry", "moe", "curly"
    and "clinton" inserted, [find("c")] reaches the branching node with an
    empty run, and the string it returns with that node is "c", not "". *)
Lemma find_c_keeps_prefix :
  exists node,
    descend stooges_clinton "c" = Some node /\
    single_run node "" node /\ 2 <= length (children node) /\
    find stooges_clinton "c" = Ok (Ambiguous "c" node) /\
    find stooges_clinton "c" <> Ok (Ambiguous "" node).
Proof.
  eexists. split_and!; [reflexivity | constructor | simpl; lia | reflexivity |].
  vm_compute. discriminate.
Qed.

(** C3, amended: when [prefix] leads to a node from which a run of
    single-child nodes leads to a node with two or more children,
    [find(prefix)] returns [prefix] followed by the symbols of that run,
    together with the branching node. *)
Theorem find_ambiguous t prefix n run b :
  prefix <> "" -> descend t prefix = Some n ->
  single_run n run b -> 2 <= length (children b) ->
  find t prefix = Ok (Ambiguous (prefix +:+ run) b).
Proof.
  intros Hne Hn Hrun Hb.
  by rewrite (find_descend t prefix n), (find_None_run n run b).
Qed.

Lemma find_ambiguous_witness :
  let b := Node [("1"%char, Node []); ("2"%char, Node [])] in
  descend ab12 "a" = Some (Node [("b"%char, b)]) /\
  single_run (Node [("b"%char, b)]) "b" b /\
  find ab12 "a" = Ok (Ambiguous "ab" b).
Proof.
  intros b.
  assert (single_run (Node [("b"%char, b)]) "b" b) as Hrun
    by repeat constructor.
  split_and!; [reflexivity | exact Hrun |].
  apply (find_ambiguous ab12 "a" (Node [("b"%char, b)]) "b" b);
    [discriminate | reflexivity | exact Hrun | simpl; lia].
Defined.

(** C4: for a key that is not empty, [shorten] returns [False] exactly when
    some symbol of the key has no matching child at its position or the
    node reached by the whole key still has children; otherwise it returns
    a prefix of the key. *)
Theorem shorten_absent_iff t key minlen :
  key <> "" ->
  (shorten t key minlen = Ok None <->
   no_child_at t key \/
   exists n, descend t key = Some n /\ children n <> []) /\
  (shorten t key minlen <> Ok None ->
   exists p, shorten t key minlen = Ok (Some p) /\ is_prefix p key).
Proof.
  intros Hne. rewrite <- descend_None_iff.
  destruct (shorten_cases t key minlen Hne)
    as [[HK Hs]|[(n & HK & Hn & Hs)|(leaf & stop & HK & Hnil & Hs & _)]];
    rewrite Hs.
  - split; [|done]. split; [by left | done].
  - split; [|done]. split; [|done]. intros _. right. by exists n.
  - split.
    + split; [done|]. intros [|(n & Hn & Hcs)]; congruence.
    + intros _. eexists. split; [done | apply slice_to_is_prefix].
Qed.

Lemma shorten_absent_iff_witness :
  (shorten digits_abcd "12345" 1 = Ok None <->
   no_child_at digits_abcd "12345" \/
   exists n, descend digits_abcd "12345" = Some n /\ children n <> []) /\
  (shorten digits_abcd "12345" 1 <> Ok None ->
   exists p, shorten digits_abcd "12345" 1 = Ok (Some p) /\ is_prefix p "12345").
Proof. apply (shorten_absent_iff digits_abcd "12345" 1). discriminate. Defined.

(** C5, as the specification has it, fails: with only "12345678" inserted,
    [shorten("12345678", minlen=9)] returns the whole key, which is
    shorter than [minlen]. *)
Lemma shorten_shorter_than_minlen :
  shorten digits "12345678" 9 = Ok (Some "12345678") /\
  ~ (9 <= Z.of_nat (String.length "12345678"))%Z.
Proof. split; [reflexivity | simpl; lia]. Qed.

(** C5, amended: a string returned by [shorten(key, minlen)] is a prefix of
    [key] whose length is at least the smaller of [minlen] and the length
    of [key]. *)
Theorem shorten_prefix_minlen t key minlen p :
  shorten t key minlen = Ok (Some p) ->
  is_prefix p key /\
  (Z.min minlen (Z.of_nat (String.length key))
     <= Z.of_nat (String.length p))%Z.
Proof.
  destruct (decide (key = "")) as [->|Hne]; [by rewrite shorten_empty|].
  destruct (shorten_cases t key minlen Hne)
    as [[_ Hs]|[(n & _ & _ & Hs)|(leaf & stop & _ & _ & Hs & Hstop & _)]];
    rewrite Hs; [done..|].
  intros [= <-]. split; [apply slice_to_is_prefix|].
  pose proof (slice_to_length_ge key stop). lia.
Qed.

Lemma shorten_prefix_minlen_witness :
  shorten digits_abcd "12345678" 3 = Ok (Some "12345") /\
  is_prefix "12345" "12345678" /\
  (Z.min 3 (Z.of_nat (String.length "12345678"))
     <= Z.of_nat (String.length "12345"))%Z.
Proof.
  split; [reflexivity|].
  apply (shorten_prefix_minlen digits_abcd "12345678" 3 "12345"). reflexivity.
Defined.

(** C6: for a fixed trie and key and [0 <= m1 <= m2], [shorten(key, m1)]
    and [shorten(key, m2)] are absent together, and otherwise the second
    result is at least as long as the first. *)
Theorem shorten_minlen_mono t key m1 m2 :
  (0 <= m1 <= m2)%Z ->
  shorten_le (shorten t key m1) (shorten t key m2).
Proof.
  intros Hm. unfold shorten.
  destruct (shorten_walk t [] key) as [items|]; [|done].
  destruct (last items) as [final|]; [|done].
  destruct (negb _); [done|]. by apply shorten_scan_mono.
Qed.

Lemma shorten_minlen_mono_witness :
  shorten_le (shorten digits_abcd "12345678" 1) (shorten digits_abcd "12345678" 7).
Proof. apply (shorten_minlen_mono digits_abcd "12345678" 1 7). lia. Defined.

(** C7: once a key has been inserted, whatever was inserted after it,
    inserting it again leaves every result of [prefixes] and of [shorten]
    as it was. *)
Theorem insert_again t0 key later :
  let t := inserts later (insert t0 key).1 in
  let t' := (insert t key).1 in
  (forall pre minlen, prefixes t' pre minlen = prefixes t pre minlen) /\
  (forall k m, shorten t' k m = shorten t k m).
Proof.
  intros t t'. assert (t' = t) as ->; [|done].
  destruct (decide (key = "")) as [->|Hne]; [done|].
  destruct (inserts_descend_mono later (insert t0 key).1 key
              (insert_descend t0 key)) as [n Hn].
  by apply (insert_present t key n).
Qed.

(** C8: in a trie whose dicts have unique keys, no element of
    [prefixes(minlen=0)] is a proper prefix of another. *)
Theorem prefixes_disjoint t p q :
  wf t -> p ∈ prefixes t None 0 -> q ∈ prefixes t None 0 ->
  ~ is_proper_prefix p q.
Proof.
  rewrite prefixes_None.
  intros Hwf (p' & -> & Hp)%elem_of_prefixes_stops
         (q' & -> & Hq)%elem_of_prefixes_stops [Hpre Hne].
  apply Hne. f_equal. by apply (stops_prefix t).
Qed.

Lemma prefixes_disjoint_witness :
  wf stooges_clinton /\
  "cl" ∈ prefixes stooges_clinton None 0 /\
  "cu" ∈ prefixes stooges_clinton None 0 /\
  ~ is_proper_prefix "cl" "cu".
Proof.
  assert (wf stooges_clinton) as Hwf
    by apply inserts_wf, inserts_wf, Trie_new_wf.
  assert ("cl" ∈ prefixes stooges_clinton None 0) as Hcl by (by vm_compute).
  assert ("cu" ∈ prefixes stooges_clinton None 0) as Hcu by (by vm_compute).
  split_and!; [done..|].
  exact (prefixes_disjoint stooges_clinton "cl" "cu" Hwf Hcl Hcu).
Defined.

(** C9: after [insert] of a key that is not empty, every path of the trie
    before the call is a path after it, to a node that has kept each of its
    keys, in their order and ahead of any new one. *)
Theorem insert_only_grows t key p n :
  key <> "" -> descend t p = Some n ->
  exists n',
    descend (insert t key).1 p = Some n' /\
    Dict.keys (children n) `prefix_of` Dict.keys (children n') /\
    forall ch, is_Some (Dict.get ch (children n)) ->
               is_Some (Dict.get ch (children n')).
Proof.
  intros Hne Hn.
  destruct (insert_descend_mono t key p n Hn) as (n' & Hn' & Hkeys).
  exists n'. split_and!; [done..|].
  intros ch [c Hc%get_Some_elem].
  destruct (Dict.get ch (children n')) eqn:Hget; [by eexists|].
  apply get_None_keys in Hget. destruct Hget.
  assert (ch ∈ Dict.keys (children n)) as Hch
    by (apply list_elem_of_fmap; by exists (ch, c)).
  by apply (elem_of_prefix _ _ _ Hch).
Qed.

Lemma insert_only_grows_witness :
  descend stooges "cu"
  = Some (Node [("r"%char, Node [("l"%char, Node [("y"%char, Node [])])])]) /\
  exists n',
    descend (insert stooges "clinton").1 "cu" = Some n' /\
    Dict.keys [("r"%char, Node [("l"%char, Node [("y"%char, Node [])])])]
      `prefix_of` Dict.keys (children n') /\
    forall ch,
      is_Some (Dict.get ch [("r"%char, Node [("l"%char, Node [("y"%char, Node [])])])]) ->
      is_Some (Dict.get ch (children n')).
Proof.
  split; [reflexivity|].
  apply (insert_only_grows stooges "clinton" "cu"
           (Node [("r"%char, Node [("l"%char, Node [("y"%char, Node [])])])]));
    [discriminate | reflexivity].
Defined.

(** C10: [insert] of the empty key raises before it touches the trie: the
    call ends in [IndexError] and the trie is the one it was given. *)
Theorem insert_empty_rejected t : insert t "" = (t, Raise IndexError).
Proof. reflexivity. Qed.

End Claims.

(** ** What [find] returns *)

Section FindMore.
Import Str StrFacts DictFacts.

Lemma find_None_not_NotFound n : find_None n <> NotFound.
Proof.
  induction n as [cs IH] using Trie_ind.
  destruct cs as [|[ch c] [|? ?]]; simpl; [done| |done].
  apply Forall_inv in IH. simpl in IH. by destruct (find_None c).
Qed.

(** The string [find(None)] returns is a path from the node: to a node
    without children when it is returned alone, to the node returned with
    it otherwise, and that node has several children. *)
Lemma find_None_sound n :
  (forall tail, find_None n = Unique tail ->
     exists leaf, descend n tail = Some leaf /\ children leaf = []) /\
  (forall tail b, find_None n = Ambiguous tail b ->
     descend n tail = Some b /\ 2 <= length (children b)).
Proof.
  induction n as [cs IH] using Trie_ind.
  destruct cs as [|[ch c] [|kv cs]].
  - split; [|done]. intros tail [= <-]. by exists (Node []).
  - apply Forall_inv in IH. simpl in IH. destruct IH as [IHu IHa].
    cbn [find_None]. destruct (find_None c) as [|full|found b] eqn:Hc; simpl.
    + done.
    + split; [|done]. intros tail [= <-]. simpl. rewrite Ascii.eqb_refl. simpl.
      by apply IHu.
    + split; [done|]. intros tail b' [= <- <-]. simpl. rewrite Ascii.eqb_refl.
      simpl. by apply IHa.
  - split; [done|]. intros tail b [= <- <-]. simpl. split; [done | lia].
Qed.

(** From a node whose [find(None)] is a lone string, that string is the
    only path to a node without children. *)
Lemma find_None_Unique_only n tail K leaf :
  find_None n = Unique tail ->
  descend n K = Some leaf -> children leaf = [] -> K = tail.
Proof.
  revert tail K. induction n as [cs IH] using Trie_ind. intros tail K.
  destruct cs as [|[ch c] [|kv cs]]; [| |done].
  - intros [= <-]. destruct K as [|k K]; [done|]. done.
  - apply Forall_inv in IH. simpl in IH.
    cbn [find_None]. destruct (find_None c) as [|full|found b] eqn:Hc; simpl; [done| |done].
    intros [= <-]. destruct K as [|k K]; simpl.
    + by intros [= <-].
    + destruct (Ascii.eqb_spec k ch) as [->|Hne]; simpl; [|done].
      intros HK Hleaf. f_equal. by apply (IH full).
Qed.


Lemma descend_symbol t ch : descend t (String ch "") = Dict.get ch (children t).
Proof. simpl. by destruct (Dict.get ch (children t)). Qed.

(** The outcome of [find] read off the path of its key. *)
Lemma find_cases t key :
  key <> "" ->
  (descend t key = None /\ find t key = Ok NotFound) \/
  (exists n, descend t key = Some n /\
             find t key = Ok (find_prepend key (find_None n))).
Proof.
  intros Hne. destruct (descend t key) as [n|] eqn:Hn.
  - right. exists n. split; [done|]. by apply find_descend.
  - left. split; [done|]. by apply find_NotFound.
Qed.

(** X1: [find] returns [False] for a key that is not empty exactly when one of
    its symbols has no matching child. *)
Theorem find_NotFound_iff t key :
  key <> "" -> find t key = Ok NotFound <-> no_child_at t key.
Proof.
  intros Hne. rewrite <- descend_None_iff.
  destruct (find_cases t key Hne) as [[Hn Hf]|(n & Hn & Hf)]; rewrite Hf, Hn.
  - done.
  - split; [|done]. intros [= Hp]. pose proof (find_None_not_NotFound n).
    by destruct (find_None n).
Qed.

Lemma find_NotFound_iff_witness :
  find stooges_clinton "cz" = Ok NotFound <-> no_child_at stooges_clinton "cz".
Proof. apply (find_NotFound_iff stooges_clinton "cz"). discriminate. Defined.

(** X2: A string [find] returns alone starts with the search key, leads to a
    node without children, and is the only such path that starts with the
    search key. *)
Theorem find_Unique_sound t prefix full :
  find t prefix = Ok (Unique full) ->
  is_prefix prefix full /\
  (exists leaf, descend t full = Some leaf /\ children leaf = []) /\
  forall K leaf, descend t K = Some leaf -> children leaf = [] ->
                 is_prefix prefix K -> K = full.
Proof.
  destruct (decide (prefix = "")) as [->|Hne]; [done|].
  destruct (find_cases t prefix Hne) as [[Hn Hf]|(n & Hn & Hf)]; rewrite Hf; [done|].
  destruct (find_None n) as [|tail|found b] eqn:Hfn; simpl; [done| |done].
  intros [= <-]. split_and!.
  - by exists tail.
  - destruct (proj1 (find_None_sound n) tail Hfn) as (leaf & Hleaf & Hnil).
    exists leaf. by rewrite descend_app, Hn.
  - intros K leaf HK Hnil [r ->]. f_equal.
    rewrite descend_app, Hn in HK. simpl in HK.
    by apply (find_None_Unique_only n tail r leaf).
Qed.

Lemma find_Unique_sound_witness :
  find stooges_clinton "cli" = Ok (Unique "clinton") /\
  is_prefix "cli" "clinton" /\
  (exists leaf, descend stooges_clinton "clinton" = Some leaf /\ children leaf = []) /\
  forall K leaf, descend stooges_clinton K = Some leaf -> children leaf = [] ->
                 is_prefix "cli" K -> K = "clinton".
Proof.
  split; [reflexivity|].
  apply (find_Unique_sound stooges_clinton "cli" "clinton"). reflexivity.
Defined.

(** X3: A string [find] returns with a node starts with the search key and
    leads to that node, which has two or more children; with unique dict
    keys, two different symbols continue the string in the trie. *)
Theorem find_Ambiguous_sound t prefix found b :
  find t prefix = Ok (Ambiguous found b) ->
  is_prefix prefix found /\
  descend t found = Some b /\
  2 <= length (children b) /\
  (wf t -> exists c1 c2,
     c1 <> c2 /\
     is_Some (descend t (found +:+ String c1 "")) /\
     is_Some (descend t (found +:+ String c2 ""))).
Proof.
  destruct (decide (prefix = "")) as [->|Hne]; [done|].
  destruct (find_cases t prefix Hne) as [[Hn Hf]|(n & Hn & Hf)]; rewrite Hf; [done|].
  destruct (find_None n) as [|tail|tail b'] eqn:Hfn; simpl; [done..|].
  intros [= <- <-].
  destruct (proj2 (find_None_sound n) tail b' Hfn) as [Hb Hlen].
  assert (descend t (prefix +:+ tail) = Some b') as Hfound
    by (by rewrite descend_app, Hn).
  split_and!; [by exists tail | done | done |].
  intros Hwf. pose proof (wf_descend _ _ _ Hwf Hfound) as Hwfb.
  destruct Hwfb as [cs Hnd _]. simpl in Hlen.
  destruct cs as [|[k1 x1] [|[k2 x2] cs]]; simpl in Hlen; [lia..|].
  exists k1, k2. split_and!.
  - unfold Dict.keys in Hnd. simpl in Hnd. apply NoDup_cons in Hnd as [Hk1 _].
    intros ->. apply Hk1. apply list_elem_of_here.
  - rewrite descend_app, Hfound. cbn [mbind option_bind].
    rewrite descend_symbol. simpl. rewrite Ascii.eqb_refl. by eexists.
  - rewrite descend_app, Hfound. cbn [mbind option_bind].
    rewrite descend_symbol. cbn [children].
    rewrite (elem_get k2 x2 ((k1, x1) :: (k2, x2) :: cs) Hnd).
    + by eexists.
    + apply list_elem_of_further, list_elem_of_here.
Qed.

Lemma find_Ambiguous_sound_witness :
  exists b,
    find ab12 "a" = Ok (Ambiguous "ab" b) /\
    is_prefix "a" "ab" /\
    descend ab12 "ab" = Some b /\
    2 <= length (children b) /\
    (wf ab12 -> exists c1 c2,
       c1 <> c2 /\
       is_Some (descend ab12 ("ab" +:+ String c1 "")) /\
       is_Some (descend ab12 ("ab" +:+ String c2 ""))).
Proof.
  eexists. split; [reflexivity|].
  apply (find_Ambiguous_sound ab12 "a" "ab"). reflexivity.
Defined.

(** Where a lone string comes back from a node, it comes back, cut by the
    symbols walked, from every node further down its path. *)
Lemma find_None_Unique_descend n a b m :
  find_None n = Unique (a +:+ b) -> descend n a = Some m ->
  find_None m = Unique b.
Proof.
  revert n; induction a as [|c a IH]; intros n.
  - by intros Hn [= <-].
  - rewrite append_cons. destruct n as [[|[k x] [|? ?]]]; [done| |done].
    cbn [find_None]. destruct (find_None x) as [|tail|? ?] eqn:Hx; simpl; [done| |done].
    intros [= -> ->]. rewrite Ascii.eqb_refl. simpl. by apply IH.
Qed.

(** X4: When [find] resolves a prefix to a key, it resolves every longer
    prefix of that key, and the key itself, to the same key. *)
Theorem find_longer_prefix t prefix prefix' full :
  find t prefix = Ok (Unique full) ->
  is_prefix prefix prefix' -> is_prefix prefix' full ->
  find t prefix' = Ok (Unique full).
Proof.
  intros Hfind [r1 ->] [r2 ->].
  destruct (decide (prefix = "")) as [->|Hne]; [done|].
  destruct (find_cases t prefix Hne) as [[Hn Hf]|(n & Hn & Hf)];
    rewrite Hf in Hfind; [done|].
  destruct (find_None n) as [|tail|? ?] eqn:Hfn; simpl in Hfind; [done| |done].
  injection Hfind as Htail. rewrite append_assoc in Htail.
  apply append_inv_head in Htail. subst tail.
  destruct (proj1 (find_None_sound n) _ Hfn) as (leaf & Hleaf & _).
  rewrite descend_app in Hleaf.
  destruct (descend n r1) as [m|] eqn:Hm; simpl in Hleaf; [|done].
  rewrite (find_descend t (prefix +:+ r1) m).
  - by rewrite (find_None_Unique_descend n r1 r2 m).
  - by destruct prefix.
  - by rewrite descend_app, Hn.
Qed.

Lemma find_longer_prefix_witness :
  find stooges_clinton "cl" = Ok (Unique "clinton") /\
  find stooges_clinton "clint" = Ok (Unique "clinton").
Proof.
  split; [reflexivity|].
  apply (find_longer_prefix stooges_clinton "cl" "clint" "clinton");
    [reflexivity | by exists "int" | by exists "on"].
Defined.


End FindMore.

(** ** What [insert] builds *)

Section InsertMore.
Import Str StrFacts DictFacts.













(** X23: a call of [insert] only adds, also when it ends in
    [RecursionError] part of the way: every path of the trie before the
    call is a path after it, to a node that has kept its keys, in their
    order and ahead of any new one. *)
Theorem insert_at_only_grows depth t key p n :
  descend t p = Some n ->
  exists n',
    descend (insert_at depth t key).1 p = Some n' /\
    Dict.keys (children n) `prefix_of` Dict.keys (children n').
Proof.
  intros Hn. rewrite insert_at_fst. by apply insert_descend_mono.
Qed.

Lemma insert_at_only_grows_witness :
  (insert_at 3 stooges "clinton").2 = Raise RecursionError /\
  exists n',
    descend (insert_at 3 stooges "clinton").1 "cu" = Some n' /\
    Dict.keys [("r"%char, Node [("l"%char, Node [("y"%char, Node [])])])]
      `prefix_of` Dict.keys (children n').
Proof.
  split; [reflexivity|].
  apply (insert_at_only_grows 3 stooges "clinton" "cu"
           (Node [("r"%char, Node [("l"%char, Node [("y"%char, Node [])])])])).
  reflexivity.
Defined.

(** X9: A key that is a proper prefix of a path of the trie is not a complete
    key for [shorten], which returns [False] for it. *)
Theorem shorten_proper_prefix t K K' minlen :
  K <> "" -> is_proper_prefix K K' -> is_Some (descend t K') ->
  shorten t K minlen = Ok None.
Proof.
  intros Hne [[r ->] HK] [n' Hn'].
  rewrite descend_app in Hn'.
  destruct (descend t K) as [n|] eqn:Hn; simpl in Hn'; [|done].
  destruct r as [|c r]; [by rewrite append_nil_r in HK|].
  simpl in Hn'. destruct (Dict.get c (children n)) eqn:Hget; [|done].
  destruct (shorten_cases t K minlen Hne)
    as [[HK' _]|[(m & _ & _ & Hs)|(leaf & stop & Hleaf & Hnil & _)]];
    [congruence | done |].
  assert (leaf = n) as -> by congruence. by rewrite Hnil in Hget.
Qed.

Lemma shorten_proper_prefix_witness :
  is_proper_prefix "12345" "12345678" /\
  shorten digits_abcd "12345" 1 = Ok None.
Proof.
  assert (is_proper_prefix "12345" "12345678") as Hpre
    by (split; [by exists "678" | discriminate]).
  split; [exact Hpre|].
  apply (shorten_proper_prefix digits_abcd "12345" "12345678" 1);
    [discriminate | exact Hpre | by eexists].
Defined.

End InsertMore.

(** ** What [shorten] returns *)

Section ShortenMore.
Import Str StrFacts DictFacts.

(** For a key that ends at a node without children, [shorten] is its
    second loop over the nodes of the key's path. *)
Lemma shorten_leaf t key minlen leaf :
  key <> "" -> descend t key = Some leaf -> children leaf = [] ->
  exists items,
    length items = String.length key /\
    (forall i, i < String.length key ->
       items !! i = descend t (take (S i) key)) /\
    shorten t key minlen
    = shorten_scan items key minlen (String.length key - 1).
Proof.
  intros Hne Hleaf Hnil. unfold shorten.
  destruct (shorten_walk t [] key) as [items|] eqn:Hw; cycle 1.
  { apply shorten_walk_None in Hw. congruence. }
  rewrite (shorten_walk_last _ _ _ Hne Hw), Hleaf, Hnil. simpl.
  destruct (shorten_walk_Some _ _ _ Hw) as [Hlen Hlook].
  exists items. by rewrite Hlen.
Qed.

(** [shorten] returns a string only for such a key. *)
Lemma shorten_Some_leaf t key minlen s :
  shorten t key minlen = Ok (Some s) ->
  key <> "" /\ exists leaf, descend t key = Some leaf /\ children leaf = [].
Proof.
  destruct (decide (key = "")) as [->|Hne]; [by rewrite shorten_empty|].
  destruct (shorten_cases t key minlen Hne)
    as [[_ Hs]|[(n & _ & _ & Hs)|(leaf & stop & Hleaf & Hnil & _)]];
    rewrite ?Hs; [done..|].
  intros _. split; [done|]. by exists leaf.
Qed.

(** A node of a path before its end has a child. *)
Lemma descend_inner_children t key n i x :
  descend t key = Some n -> i < String.length key ->
  descend t (take i key) = Some x -> children x <> [].
Proof.
  intros Hn Hi Hx. destruct (take_is_prefix i key) as [r Hr].
  assert (r <> "") as Hrne.
  { intros ->. rewrite append_nil_r in Hr.
    pose proof (take_length i key) as Hlen. rewrite <- Hr in Hlen. lia. }
  rewrite Hr, descend_app, Hx in Hn. destruct r as [|c r]; [done|].
  simpl in Hn. intros Hnil. by rewrite Hnil in Hn.
Qed.

(** The two ways the second loop ends. *)
Lemma shorten_scan_cases items key minlen n :
  n <= length items ->
  (shorten_scan items key minlen n = Ok (Some (slice_to key minlen))) \/
  (exists j b,
     j < n /\ items !! j = Some b /\ length (children b) <> 1 /\
     shorten_scan items key minlen n
     = Ok (Some (slice_to key (Z.max (Z.of_nat j + 2) minlen)))).
Proof.
  induction n as [|n IH]; intros Hn; [by left|]. simpl.
  destruct (lookup_lt_is_Some_2 items n) as [item Hitem]; [lia|].
  rewrite Hitem.
  destruct (Nat.eqb_spec (length (children item)) 1) as [Hone|Hbr].
  - destruct IH as [IH|(j & b & Hj & Hb & Hbr & IH)]; [lia | by left |].
    right. exists j, b. split_and!; [lia | done..].
  - right. exists n, item. split_and!; [lia | done..|].
    do 3 f_equal. destruct (Z.ltb_spec (Z.of_nat n + 2) minlen); lia.
Qed.

(** What [shorten] returns, [find] resolves to the key; the helper behind
    the properties below. *)
Lemma shorten_Some_find t key minlen s :
  (1 <= minlen)%Z -> shorten t key minlen = Ok (Some s) ->
  find t s = Ok (Unique key).
Proof.
  intros Hmin Hs. destruct (shorten_Some_leaf _ _ _ _ Hs) as [Hne _].
  destruct (shorten_cases t key minlen Hne)
    as [[_ Hs']|[(n & _ & _ & Hs')|(leaf & stop & Hleaf & Hnil & Hs' & Hstop & Hone)]];
    [congruence..|].
  assert (s = slice_to key stop) as -> by congruence.
  rewrite slice_to_nonneg by lia.
  apply (find_take t key leaf); [lia | done | done | | done].
  intros i n Hi. apply Hone; lia.
Qed.

(** X10: With [minlen >= 1], two keys that [shorten] maps to the same string
    are the same key. *)
Theorem shorten_injective t k1 k2 minlen s :
  (1 <= minlen)%Z ->
  shorten t k1 minlen = Ok (Some s) -> shorten t k2 minlen = Ok (Some s) ->
  k1 = k2.
Proof.
  intros Hmin H1%shorten_Some_find H2%shorten_Some_find; [|done..]. congruence.
Qed.

Lemma shorten_injective_witness :
  shorten digits_abcd "12345678" 4 = Ok (Some "12345") /\
  "12345678" = "12345678".
Proof.
  split; [reflexivity|].
  apply (shorten_injective digits_abcd "12345678" "12345678" 4 "12345");
    [lia | reflexivity | reflexivity].
Defined.

(** X11: A string [shorten] returns that is longer than [minlen] is as short as
    it can be: without its last symbol, [find] stops at a node with several
    children. *)
Theorem shorten_minimal t key minlen s :
  (0 <= minlen < Z.of_nat (String.length s))%Z ->
  shorten t key minlen = Ok (Some s) ->
  exists b,
    find t (take (String.length s - 1) key)
    = Ok (Ambiguous (take (String.length s - 1) key) b) /\
    2 <= length (children b).
Proof.
  intros Hmin Hs.
  destruct (shorten_Some_leaf _ _ _ _ Hs) as (Hne & leaf & Hleaf & Hnil).
  destruct (shorten_leaf t key minlen leaf Hne Hleaf Hnil)
    as (items & Hlen & Hlook & Hscan).
  assert (0 < String.length key) as Hkey by (destruct key; [done | simpl; lia]).
  rewrite Hscan in Hs.
  destruct (shorten_scan_cases items key minlen (String.length key - 1))
    as [Hc|(j & b & Hj & Hb & Hbr & Hc)]; [lia | |]; rewrite Hc in Hs;
    injection Hs as <-.
  { rewrite slice_to_nonneg, take_length in Hmin by lia. lia. }
  rewrite slice_to_nonneg, take_length in Hmin |- * by lia.
  replace (Z.to_nat (Z.max (Z.of_nat j + 2) minlen) `min`
           String.length key - 1) with (S j) by lia.
  rewrite Hlook in Hb by lia.
  assert (children b <> []) as Hcs.
  { apply (descend_inner_children t key leaf (S j) b); [done | lia | done]. }
  assert (2 <= length (children b)) as Hb2.
  { destruct (children b) as [|? [|? ?]]; simpl in *; (done || lia). }
  exists b. split; [|done].
  rewrite (find_descend t (take (S j) key) b); [|by destruct key|done].
  destruct b as [[|[? ?] [|? ?]]]; simpl in Hb2; try lia.
  simpl. by rewrite append_nil_r.
Qed.

Lemma shorten_minimal_witness :
  shorten digits_abcd "12345678" 1 = Ok (Some "12345") /\
  exists b,
    find digits_abcd (take (String.length "12345" - 1) "12345678")
    = Ok (Ambiguous (take (String.length "12345" - 1) "12345678") b) /\
    2 <= length (children b).
Proof.
  split; [reflexivity|].
  apply (shorten_minimal digits_abcd "12345678" 1 "12345");
    [simpl; lia | reflexivity].
Defined.

(** Through any insertions a path stays a path, to a node that keeps its
    keys ahead of the new ones. *)
Lemma inserts_descend_keys keys t p n :
  descend t p = Some n ->
  exists n', descend (inserts keys t) p = Some n' /\
    Dict.keys (children n) `prefix_of` Dict.keys (children n').
Proof.
  revert t n; induction keys as [|key keys IH]; intros t n Hn.
  { by exists n. }
  destruct (insert_descend_mono t key p n Hn) as (n1 & Hn1 & Hkeys1).
  destruct (IH _ _ Hn1) as (n' & Hn' & Hkeys).
  exists n'. split; [done|]. by etrans.
Qed.

Lemma keys_prefix_length (cs cs' : list (ascii * Trie)) :
  Dict.keys cs `prefix_of` Dict.keys cs' -> length cs <= length cs'.
Proof.
  intros H%prefix_length. unfold Dict.keys in H. by rewrite !length_fmap in H.
Qed.

(** The second loop over the nodes of the same path in a trie that has
    grown stops no earlier. *)
Lemma shorten_scan_grown items items' key minlen n :
  n <= length items -> n <= length items' ->
  (forall i x x', i < n -> items !! i = Some x -> items' !! i = Some x' ->
     length (children x') = 1 -> length (children x) = 1) ->
  exists stop stop' : Z,
    shorten_scan items key minlen n = Ok (Some (slice_to key stop)) /\
    shorten_scan items' key minlen n = Ok (Some (slice_to key stop')) /\
    (minlen <= stop <= stop')%Z /\
    (stop' <= Z.max (Z.of_nat n + 1) minlen)%Z.
Proof.
  induction n as [|n IH]; intros Hn Hn' Hone; simpl.
  { exists minlen, minlen. split_and!; (done || lia). }
  destruct (lookup_lt_is_Some_2 items n) as [item Hitem]; [lia|].
  destruct (lookup_lt_is_Some_2 items' n) as [item' Hitem']; [lia|].
  rewrite Hitem, Hitem'.
  destruct IH as (stop & stop' & Hs & Hs' & Hle & Hup); [lia | lia | |].
  { intros i x x' Hi. apply Hone. lia. }
  destruct (Nat.eqb_spec (length (children item')) 1) as [Hone'|Hbr'].
  - rewrite (Hone n item item'), Nat.eqb_refl by (done || lia).
    exists stop, stop'. split_and!; (done || lia).
  - destruct (Nat.eqb_spec (length (children item)) 1) as [Hone1|Hbr].
    + eexists stop, _. split_and!; [done | done | | |];
        destruct (Z.ltb_spec (Z.of_nat n + 2) minlen); lia.
    + eexists _, _. split_and!; [done | done | | |];
        destruct (Z.ltb_spec (Z.of_nat n + 2) minlen); lia.
Qed.

(** X12: Inserting more keys never shortens what [shorten] returns for a key:
    with [minlen >= 0], a string returned after further insertions is at
    least as long as the one returned before them. *)
Theorem shorten_grows t keys key minlen s s' :
  (0 <= minlen)%Z ->
  shorten t key minlen = Ok (Some s) ->
  shorten (inserts keys t) key minlen = Ok (Some s') ->
  String.length s <= String.length s'.
Proof.
  intros Hmin Hs Hs'.
  destruct (shorten_Some_leaf _ _ _ _ Hs) as (Hne & leaf & Hleaf & Hnil).
  destruct (shorten_Some_leaf _ _ _ _ Hs') as (_ & leaf' & Hleaf' & Hnil').
  destruct (shorten_leaf t key minlen leaf Hne Hleaf Hnil)
    as (items & Hlen & Hlook & Hscan).
  destruct (shorten_leaf _ key minlen leaf' Hne Hleaf' Hnil')
    as (items' & Hlen' & Hlook' & Hscan').
  rewrite Hscan in Hs. rewrite Hscan' in Hs'.
  destruct (shorten_scan_grown items items' key minlen (String.length key - 1))
    as (stop & stop' & Hst & Hst' & Hle & _); [lia | lia | |].
  - intros i x x' Hi Hx Hx' Hone'.
    rewrite Hlook in Hx by lia. rewrite Hlook' in Hx' by lia.
    destruct (inserts_descend_keys keys t _ x Hx) as (y & Hy & Hkeys).
    assert (y = x') as -> by congruence.
    apply keys_prefix_length in Hkeys.
    pose proof (descend_inner_children t key leaf (S i) x Hleaf ltac:(lia) Hx).
    destruct (children x); [done | simpl in *; lia].
  - rewrite Hst in Hs. rewrite Hst' in Hs'.
    injection Hs as <-. injection Hs' as <-.
    apply slice_to_length_mono. lia.
Qed.

Lemma shorten_grows_witness :
  shorten digits "12345678" 1 = Ok (Some "1") /\
  shorten (inserts ["1234abcd"] digits) "12345678" 1 = Ok (Some "12345") /\
  String.length "1" <= String.length "12345".
Proof.
  split_and!; [reflexivity | reflexivity |].
  apply (shorten_grows digits ["1234abcd"] "12345678" 1 "1" "12345");
    [lia | reflexivity | reflexivity].
Defined.

(** X13: A path for which [shorten] returns [False] stays so through any
    insertions: a key that has lost its leaf does not get it back. *)
Theorem shorten_absent_stays t keys key minlen :
  is_Some (descend t key) ->
  shorten t key minlen = Ok None ->
  shorten (inserts keys t) key minlen = Ok None.
Proof.
  intros [n Hn] Hs.
  destruct (decide (key = "")) as [->|Hne]; [by rewrite shorten_empty in Hs|].
  destruct (shorten_cases t key minlen Hne)
    as [[Hn0 _]|[(m & Hm & Hcs & _)|(leaf & stop & _ & _ & Hs' & _)]];
    [congruence | | congruence].
  destruct (inserts_descend_keys keys t key m Hm) as (m' & Hm' & Hkeys).
  apply keys_prefix_length in Hkeys.
  destruct (shorten_cases (inserts keys t) key minlen Hne)
    as [[Hn0 _]|[(x & _ & _ & Hx)|(leaf & stop & Hleaf & Hnil & _)]];
    [congruence | done |].
  assert (leaf = m') as -> by congruence. rewrite Hnil in Hkeys.
  destruct (children m); [done | simpl in Hkeys; lia].
Qed.

Lemma shorten_absent_stays_witness :
  shorten digits_abcd "12345" 1 = Ok None /\
  shorten (inserts ["zzz"] digits_abcd) "12345" 1 = Ok None.
Proof.
  split; [reflexivity|].
  apply (shorten_absent_stays digits_abcd ["zzz"] "12345" 1);
    [by eexists | reflexivity].
Defined.

End ShortenMore.

(** ** What [prefixes] returns *)

Section PrefixesMore.
Import Str StrFacts DictFacts.

Lemma prefixes_Node_here cs pre minlen :
  length cs = 0 \/ (length cs = 1 /\ (minlen <= Z.of_nat (String.length pre))%Z) ->
  prefixes (Node cs) (Some pre) minlen = {[ pre ]}.
Proof.
  intros Hhere. rewrite prefixes_Node. cbn [default from_option id].
  destruct (Nat.eqb_spec (length cs) 0); [done|].
  destruct (Nat.eqb_spec (length cs) 1); [|lia].
  destruct (Z.leb_spec minlen (Z.of_nat (String.length pre))); [done | lia].
Qed.

Lemma prefixes_Node_step cs pre minlen :
  ~ (length cs = 0 \/ (length cs = 1 /\ (minlen <= Z.of_nat (String.length pre))%Z)) ->
  prefixes (Node cs) (Some pre) minlen
  = foldl (fun found kv =>
             found ∪ prefixes kv.2 (Some (pre +:+ String kv.1 "")) minlen)
          ∅ cs.
Proof.
  intros Hstep. rewrite prefixes_Node. cbn [default from_option id].
  destruct (Nat.eqb_spec (length cs) 0); [tauto|].
  destruct (Nat.eqb_spec (length cs) 1); [|done].
  destruct (Z.leb_spec minlen (Z.of_nat (String.length pre))); [tauto | done].
Qed.

Lemma append_symbol_length pre ch :
  String.length (pre +:+ String ch "") = S (String.length pre).
Proof. rewrite append_length. simpl. lia. Qed.

(** The strings [prefixes] returns are its prefix followed by the paths
    that [yields] describes. *)
Lemma elem_of_prefixes t pre minlen s :
  s ∈ prefixes t (Some pre) minlen <->
  exists q, s = pre +:+ q /\ yields minlen (String.length pre) t q.
Proof.
  split.
  - revert pre; induction t as [cs IH] using Trie_ind; intros pre.
    destruct (decide (length cs = 0 \/
                (length cs = 1 /\ (minlen <= Z.of_nat (String.length pre))%Z)))
      as [Hhere|Hstep].
    + rewrite prefixes_Node_here by done. intros ->%elem_of_singleton.
      exists "". rewrite append_nil_r. split; [done | by constructor].
    + rewrite prefixes_Node_step, elem_of_prefixes_loop by done.
      intros [[]%elem_of_empty|([ch v] & Hin & Hs)]. simpl in Hs.
      rewrite Forall_forall in IH.
      destruct (IH _ Hin _ Hs) as (q & -> & Hq).
      rewrite append_symbol_length in Hq.
      exists (String ch q). split; [by rewrite append_assoc|].
      by apply yields_step with v.
  - intros (q & -> & Hq). remember (String.length pre) as len eqn:Hlen.
    revert pre Hlen.
    induction Hq as [len t Hhere|len t ch child q Hstep Hin Hq IH];
      intros pre ->; destruct t as [cs]; cbn [children] in *.
    + rewrite prefixes_Node_here, append_nil_r by done. by apply elem_of_singleton.
    + rewrite prefixes_Node_step, elem_of_prefixes_loop by done.
      right. exists (ch, child). split; [done|]. simpl.
      replace (pre +:+ String ch q) with ((pre +:+ String ch "") +:+ q)
        by (by rewrite append_assoc).
      apply IH. by rewrite append_symbol_length.
Qed.

(** With unique keys, only one yielding path runs along a given string. *)
Lemma yields_along minlen len t p q K :
  wf t -> yields minlen len t p -> yields minlen len t q ->
  is_prefix p K -> is_prefix q K -> p = q.
Proof.
  intros Hwf Hp. revert q K Hwf.
  induction Hp as [len t Hhere|len t ch child p Hstep Hin Hp IH];
    intros q K Hwf Hq HpK HqK.
  - destruct Hq as [|? ? ? ? ? Hstep]; [done | tauto].
  - destruct Hq as [? ? Hhere|len t ch' child' q Hstep' Hin' Hq]; [tauto|].
    destruct K as [|k K]; [by apply is_prefix_nil_inv in HpK|].
    apply is_prefix_cons in HpK as [-> HpK].
    apply is_prefix_cons in HqK as [-> HqK].
    destruct Hwf as [cs Hnd Hall]. simpl in *.
    assert (child' = child) as ->.
    { apply (elem_get _ _ _ Hnd) in Hin, Hin'. congruence. }
    f_equal. apply (IH q K); [|done..].
    rewrite Forall_forall in Hall. apply (Hall _ Hin).
Qed.

Lemma is_prefix_refl s : is_prefix s s.
Proof. exists "". by rewrite append_nil_r. Qed.

(** X14: With unique dict keys and for every [minlen], no string that
    [prefixes] returns is a proper prefix of another. *)
Theorem prefixes_disjoint_minlen t minlen p q :
  wf t -> p ∈ prefixes t None minlen -> q ∈ prefixes t None minlen ->
  ~ is_proper_prefix p q.
Proof.
  rewrite prefixes_None.
  intros Hwf (p' & -> & Hp)%elem_of_prefixes (q' & -> & Hq)%elem_of_prefixes
         [Hpre Hne].
  apply Hne. f_equal.
  apply (yields_along minlen 0 t p' q' q'); [done..|apply is_prefix_refl].
Qed.

Lemma prefixes_disjoint_minlen_witness :
  wf stooges_clinton /\
  "cli" ∈ prefixes stooges_clinton None 3 /\
  "moe" ∈ prefixes stooges_clinton None 3 /\
  ~ is_proper_prefix "cli" "moe".
Proof.
  assert (wf stooges_clinton) as Hwf
    by apply inserts_wf, inserts_wf, Trie_new_wf.
  assert ("cli" ∈ prefixes stooges_clinton None 3) as Hcl by (by vm_compute).
  assert ("moe" ∈ prefixes stooges_clinton None 3) as Hcu by (by vm_compute).
  split_and!; [done..|].
  exact (prefixes_disjoint_minlen stooges_clinton 3 "cli" "moe" Hwf Hcl Hcu).
Defined.

Lemma yields_cover minlen len t K leaf :
  descend t K = Some leaf -> children leaf = [] ->
  exists q, yields minlen len t q /\ is_prefix q K.
Proof.
  revert t len; induction K as [|ch K IH]; intros t len.
  - intros [= ->] Hnil. exists "". split; [|apply is_prefix_refl].
    constructor. left. by rewrite Hnil.
  - destruct (decide (length (children t) = 0 \/
                (length (children t) = 1 /\ (minlen <= Z.of_nat len)%Z)))
      as [Hhere|Hstep].
    { intros _ _. exists "". split; [by constructor | by exists (String ch K)]. }
    simpl. destruct (Dict.get ch (children t)) as [c|] eqn:Hget; simpl; [|done].
    intros Hleaf Hnil. destruct (IH c (S len) Hleaf Hnil) as (q & Hq & Hpre).
    exists (String ch q). split; [|by apply is_prefix_cons].
    apply yields_step with c; [done | by apply get_Some_elem | done].
Qed.

(** X15: With unique dict keys, every path to a node without children starts
    with exactly one of the strings [prefixes] returns. *)
Theorem prefixes_cover t minlen K leaf :
  wf t -> descend t K = Some leaf -> children leaf = [] ->
  exists s,
    s ∈ prefixes t None minlen /\ is_prefix s K /\
    forall s', s' ∈ prefixes t None minlen -> is_prefix s' K -> s' = s.
Proof.
  intros Hwf Hleaf Hnil. rewrite prefixes_None.
  destruct (yields_cover minlen 0 t K leaf Hleaf Hnil) as (q & Hq & Hpre).
  exists q. split_and!; [|done|].
  - apply elem_of_prefixes. by exists q.
  - intros s' (q' & -> & Hq')%elem_of_prefixes Hpre'.
    by apply (yields_along minlen 0 t q' q K).
Qed.

Lemma prefixes_cover_witness :
  wf stooges_clinton /\
  exists s,
    s ∈ prefixes stooges_clinton None 3 /\ is_prefix s "clinton" /\
    forall s', s' ∈ prefixes stooges_clinton None 3 ->
               is_prefix s' "clinton" -> s' = s.
Proof.
  assert (wf stooges_clinton) as Hwf
    by apply inserts_wf, inserts_wf, Trie_new_wf.
  split; [done|].
  apply (prefixes_cover stooges_clinton 3 "clinton" (Node []) Hwf);
    reflexivity.
Defined.

Lemma yields_descend minlen len t q :
  wf t -> yields minlen len t q ->
  exists n,
    descend t q = Some n /\
    (children n = [] \/
     (length (children n) = 1 /\
      (minlen <= Z.of_nat (len + String.length q))%Z)).
Proof.
  intros Hwf Hq. induction Hq as [len t Hhere|len t ch child q Hstep Hin Hq IH].
  - exists t. split; [done|]. rewrite Nat.add_0_r.
    destruct Hhere as [H0|H1]; [left | by right]. by destruct (children t).
  - destruct Hwf as [cs Hnd Hall]. simpl in *.
    rewrite (elem_get _ _ _ Hnd Hin). simpl.
    rewrite Forall_forall in Hall.
    destruct (IH (Hall _ Hin)) as (n & Hn & Hstop).
    exists n. split; [done|]. by rewrite <- Nat.add_succ_comm.
Qed.

(** X16: With unique dict keys, every string [prefixes] returns is a path of
    the trie; it ends at a node without children, or at a node with a
    single child and has at least [minlen] symbols. *)
Theorem prefixes_sound t minlen s :
  wf t -> s ∈ prefixes t None minlen ->
  exists n,
    descend t s = Some n /\
    (children n = [] \/
     (length (children n) = 1 /\ (minlen <= Z.of_nat (String.length s))%Z)).
Proof.
  rewrite prefixes_None. intros Hwf (q & -> & Hq)%elem_of_prefixes.
  apply (yields_descend minlen 0 t q Hwf Hq).
Qed.

Lemma prefixes_sound_witness :
  wf stooges_clinton /\
  "mo" ∈ prefixes stooges_clinton None 2 /\
  exists n,
    descend stooges_clinton "mo" = Some n /\
    (children n = [] \/
     (length (children n) = 1 /\ (2 <= Z.of_nat (String.length "mo"))%Z)).
Proof.
  assert (wf stooges_clinton) as Hwf
    by apply inserts_wf, inserts_wf, Trie_new_wf.
  assert ("mo" ∈ prefixes stooges_clinton None 2) as Hmo by (by vm_compute).
  split_and!; [done..|].
  exact (prefixes_sound stooges_clinton 2 "mo" Hwf Hmo).
Defined.

End PrefixesMore.

(** ** The ids of Bcache objects *)

Section BcacheIds.
Import Str StrFacts DictFacts.

Lemma shorten_returns t key minlen :
  key <> "" -> exists v, shorten t key minlen = Ok v.
Proof.
  intros Hne.
  destruct (shorten_cases t key minlen Hne)
    as [[_ Hs]|[(n & _ & _ & Hs)|(leaf & stop & _ & _ & Hs & _)]];
    rewrite Hs; by eexists.
Qed.

(** What [shorten] returns is a prefix of the key with, when the key is
    long enough, [minlen] symbols or more. *)
Lemma shorten_Some_prefix t key minlen s :
  shorten t key minlen = Ok (Some s) ->
  is_prefix s key /\
  (Z.min minlen (Z.of_nat (String.length key))
     <= Z.of_nat (String.length s))%Z.
Proof.
  intros Hs. destruct (shorten_Some_leaf _ _ _ _ Hs) as [Hne _].
  destruct (shorten_cases t key minlen Hne)
    as [[_ Hs']|[(n & _ & _ & Hs')|(leaf & stop & _ & _ & Hs' & Hstop & _)]];
    [congruence..|].
  assert (s = slice_to key stop) as -> by congruence.
  split; [apply slice_to_is_prefix|].
  pose proof (slice_to_length_ge key stop). lia.
Qed.

(** X17: after an [obj.id = val] that returned, and whatever calls of
    [insert] the setters of any object make afterwards, reading [obj.id]
    does not raise; a string it returns is a prefix of [val] with 4 symbols
    or all of [val], and [find] on the shared trie resolves it to [val]. *)
Theorem id_setter_getter depth ids self val later :
  let '(ids1, self1, r) := Bcache.id_setter_at depth ids self val in
  r = Ok tt ->
  exists v,
    Bcache.id (inserts_at later ids1) self1 = Ok v /\
    forall s, v = Some s ->
      is_prefix s val /\
      (Z.min 4 (Z.of_nat (String.length val)) <= Z.of_nat (String.length s))%Z /\
      find (inserts_at later ids1) s = Ok (Unique val).
Proof.
  unfold Bcache.id_setter_at.
  destruct (insert_at depth ids val) as [ids1 r] eqn:Hins. intros ->.
  assert (val <> "") as Hne by (by intros ->).
  unfold Bcache.id. cbn [Bcache._id].
  destruct (shorten_returns (inserts_at later ids1) val 4 Hne) as [v Hv].
  exists v. split; [done|]. intros s ->.
  destruct (shorten_Some_prefix _ _ _ _ Hv) as [Hpre Hlen].
  split_and!; [done..|]. by apply (shorten_Some_find _ val 4).
Qed.

Lemma id_setter_getter_witness :
  (Bcache.id_setter_at 8 digits Bcache.__init__ "1234abcd").2 = Ok tt /\
  let '(ids1, self1, r) :=
    Bcache.id_setter_at 8 digits Bcache.__init__ "1234abcd" in
  exists v,
    Bcache.id (inserts_at [(1, "zz")] ids1) self1 = Ok v /\
    forall s, v = Some s ->
      is_prefix s "1234abcd" /\
      (Z.min 4 (Z.of_nat (String.length "1234abcd"))
         <= Z.of_nat (String.length s))%Z /\
      find (inserts_at [(1, "zz")] ids1) s = Ok (Unique "1234abcd").
Proof.
  split; [reflexivity|].
  apply (id_setter_getter 8 digits Bcache.__init__ "1234abcd" [(1, "zz")]).
  reflexivity.
Defined.

(** X18: [obj.id = ""] raises [IndexError] and leaves the shared trie as it
    was, but the object has taken the empty id, and reading [obj.id]
    raises [IndexError] whatever the trie holds. *)
Theorem id_setter_empty ids self :
  let '(ids1, self1, r) := Bcache.id_setter ids self "" in
  r = Raise IndexError /\ ids1 = ids /\
  Bcache._id self1 = Some "" /\
  forall ids', Bcache.id ids' self1 = Raise IndexError.
Proof. done. Qed.

End BcacheIds.

(** ** What main prints *)

Section Main.
Import Str StrFacts DictFacts.

Lemma printable_parent ids o :
  printable o -> exists k, Bcache.parent ids o = Ok k.
Proof.
  intros (_ & _ & Hp). unfold Bcache.parent.
  destruct (Bcache._parent o) as [v|]; [|by eexists].
  apply shorten_returns. congruence.
Qed.

Lemma printable_id ids o :
  printable o -> exists k, Bcache.id ids o = Ok k.
Proof.
  intros (_ & Hi & _). unfold Bcache.id.
  destruct (Bcache._id o) as [v|]; [|by eexists].
  apply shorten_returns. congruence.
Qed.

Lemma printable_str ids o :
  printable o -> Bcache.__str__ ids o = Return (line ids o).
Proof.
  intros Ho. unfold line.
  destruct (printable_id ids o Ho) as [k Hk]. destruct Ho as ([ty Hty] & _).
  unfold Bcache.__str__. by rewrite Hty, Hk.
Qed.

Lemma tops_cons_None o objects :
  Bcache._parent o = None -> tops (o :: objects) = o :: tops objects.
Proof. intros Ho. unfold tops. by rewrite filter_cons_True. Qed.

Lemma tops_cons_Some o objects :
  is_Some (Bcache._parent o) -> tops (o :: objects) = tops objects.
Proof.
  intros [v Ho]. unfold tops. rewrite filter_cons_False; [done|]. congruence.
Qed.

Lemma under_cons_None ids r o objects :
  Bcache._parent o = None -> under ids r (o :: objects) = under ids r objects.
Proof.
  intros Ho. unfold under. rewrite filter_cons_False; [done|].
  rewrite Ho. by intros [[] _].
Qed.

Lemma under_cons_eq ids r o objects :
  is_Some (Bcache._parent o) -> Bcache.parent ids o = r ->
  under ids r (o :: objects) = o :: under ids r objects.
Proof. intros Ho Hr. unfold under. by rewrite filter_cons_True. Qed.

Lemma under_cons_ne ids r o objects :
  Bcache.parent ids o <> r -> under ids r (o :: objects) = under ids r objects.
Proof.
  intros Hr. unfold under. rewrite filter_cons_False; [done|]. by intros [_ ?].
Qed.

(** The first loop: [parents] receives the objects without a parent, and
    each key of [children] the objects whose [parent] getter gives it. *)
Lemma main_group_spec ids objects parents children :
  Forall printable objects ->
  exists children',
    main_group ids objects parents children
    = Return (parents ++ tops objects, children') /\
    forall k, children' !! k = merge (children !! k) (under ids (Ok k) objects).
Proof.
  intros Hall. revert parents children.
  induction Hall as [|i objects Hi Hall IH]; intros parents children.
  { exists children. split; [simpl; by rewrite app_nil_r|].
    intros k. unfold under. rewrite filter_nil.
    destruct (children !! k); simpl; [by rewrite app_nil_r | done]. }
  cbn [main_group]. destruct (Bcache._parent i) as [v|] eqn:Hv.
  - destruct (printable_parent ids i Hi) as [k0 Hk0]. rewrite Hk0.
    cbn [lift mbind outcome_bind].
    set (children1 := match children !! k0 with
                      | Some _ => children
                      | None => <[k0 := []]> children
                      end).
    assert ((match children !! k0 with
             | Some _ => Return children
             | None => Return (<[k0 := []]> children)
             end : outcome _) = Return children1) as ->
      by (subst children1; by destruct (children !! k0)).
    cbn [mbind outcome_bind].
    assert (children1 !! k0 = Some (default [] (children !! k0))) as Hk1.
    { subst children1. destruct (children !! k0) eqn:Hc; simpl; [done|].
      by rewrite lookup_insert_eq. }
    rewrite Hk1.
    destruct (IH parents (<[k0 := default [] (children !! k0) ++ [i]]> children1))
      as (children' & Hrun & Hlook).
    exists children'. rewrite Hrun, tops_cons_Some by (by rewrite Hv).
    split; [done|]. intros k. rewrite Hlook.
    destruct (decide (k = k0)) as [->|Hne].
    + rewrite lookup_insert_eq, (under_cons_eq ids (Ok k0) i) by (by rewrite ?Hv).
      destruct (children !! k0); simpl; [by rewrite <- app_assoc | done].
    + rewrite lookup_insert_ne, under_cons_ne by congruence.
      f_equal. subst children1. destruct (children !! k0) eqn:Hc; [done|].
      by rewrite lookup_insert_ne.
  - destruct (IH (parents ++ [i]) children) as (children' & Hrun & Hlook).
    exists children'. rewrite Hrun, tops_cons_None, <- app_assoc by done.
    split; [done|]. intros k. by rewrite Hlook, under_cons_None.
Qed.

(** The loop over one group, entered with [nr] at the size of the group,
    prints the marked texts of its objects. *)
Lemma main_print_children_spec ids nr group stdout :
  Forall printable group -> nr = Z.of_nat (length group) ->
  main_print_children ids nr group stdout
  = (stdout ++ tree (line ids <$> group), Return tt).
Proof.
  intros Hall. revert nr stdout.
  induction Hall as [|child group Hchild Hall IH]; intros nr stdout Hnr.
  { simpl. by rewrite app_nil_r. }
  cbn [main_print_children]. rewrite (printable_str ids child Hchild).
  rewrite IH by (simpl in Hnr; lia).
  rewrite <- app_assoc. do 2 f_equal.
  destruct group as [|c group].
  - simpl in Hnr. subst nr. reflexivity.
  - destruct (Z.eqb_spec nr 1) as [H1|_]; [simpl in Hnr; lia|]. reflexivity.
Qed.

Lemma under_printable ids r objects :
  Forall printable objects -> Forall printable (under ids r objects).
Proof.
  rewrite !Forall_forall. intros Hall o [_ Ho]%list_elem_of_filter. by apply Hall.
Qed.


(** The second loop, when some parent has none. *)
Lemma main_print_KeyError ids objects children parents stdout p :
  Forall printable objects -> Forall printable parents ->
  (forall k, children !! k = merge None (under ids (Ok k) objects)) ->
  p ∈ parents -> under ids (Bcache.id ids p) objects = [] ->
  (main_print ids children parents stdout).2 = Throw (Builtin KeyError).
Proof.
  intros Hobjs Hparents Hchildren. revert stdout.
  induction Hparents as [|q parents Hq Hparents IH]; intros stdout Hin Hnone.
  { by apply elem_of_nil in Hin. }
  cbn [main_print]. rewrite (printable_str ids q Hq).
  destruct (printable_id ids q Hq) as [k Hk]. rewrite Hk.
  cbn [lift mbind outcome_bind]. unfold getitem. rewrite Hchildren.
  destruct (under ids (Ok k) objects) as [|c group] eqn:Hunder; [done|].
  cbn [merge mbind outcome_bind mret outcome_ret].
  rewrite main_print_children_spec;
    [|rewrite <- Hunder; by apply under_printable | done].
  apply elem_of_cons in Hin as [->|Hin]; [|by apply IH].
  rewrite Hk in Hnone. congruence.
Qed.

Lemma tops_printable objects :
  Forall printable objects -> Forall printable (tops objects).
Proof.
  rewrite !Forall_forall. intros Hall o [_ Ho]%list_elem_of_filter. by apply Hall.
Qed.

Lemma elem_of_tops p objects :
  p ∈ tops objects <-> p ∈ objects /\ Bcache._parent p = None.
Proof. unfold tops. rewrite list_elem_of_filter. tauto. Qed.


(** X20: When some object without a parent has no object under it, [main] ends
    in the [KeyError] of [children[parent.id]]. *)
Theorem main_KeyError ids objects p :
  Forall printable objects ->
  p ∈ objects -> Bcache._parent p = None ->
  under ids (Bcache.id ids p) objects = [] ->
  (main ids objects).2 = Throw (Builtin KeyError).
Proof.
  intros Hall Hp Hnone Hunder. unfold main.
  destruct (main_group_spec ids objects [] ∅ Hall) as (children & -> & Hlook).
  rewrite app_nil_l.
  apply (main_print_KeyError ids objects children (tops objects) [] p);
    [done | by apply tops_printable | | by apply elem_of_tops | done].
  intros k. by rewrite Hlook, lookup_empty.
Qed.

Lemma listing_printable :
  Forall printable [cset_1; bdev_1; cache_1; cset_2].
Proof. repeat constructor; (by eexists) || discriminate. Qed.


Lemma main_KeyError_witness :
  under listing_ids (Bcache.id listing_ids cset_2)
        [cset_1; bdev_1; cache_1; cset_2] = [] /\
  (main listing_ids [cset_1; bdev_1; cache_1; cset_2]).2
  = Throw (Builtin KeyError).
Proof.
  assert (under listing_ids (Bcache.id listing_ids cset_2)
            [cset_1; bdev_1; cache_1; cset_2] = []) as Hunder
    by (by vm_compute).
  split; [exact Hunder|].
  apply (main_KeyError listing_ids [cset_1; bdev_1; cache_1; cset_2] cset_2);
    [apply listing_printable | | reflexivity | exact Hunder].
  do 3 apply list_elem_of_further. apply list_elem_of_here.
Defined.



End Main.
